(** * Calibration practice app: response collection and calibration statistics

    A shallow embedding of the scoring logic of [streamlit_app.py]:
    [collect_responses] (the Response Collector), [compute_calibration]
    (the Calibration Engine) and the handler of the score button, with the
    input form that fills the session and the expander of the raw
    responses.

    Conventions of the embedding.
    - A question (one dict of [questions]) and a row of the responses
      DataFrame are records; a DataFrame is the list of its rows, and a
      column of it is the list of the values of one field.
    - [st.session_state] is a finite map from widget keys to the strings the
      radio widgets store; [.get] is the lookup, [None] for an absent key.
    - Python exceptions are the [Raise] results of an error monad.
    - A character of a string is a code point below 256.
    - Python [int]s are [Z].  Python [float]s are IEEE 754 binary64 numbers
      ([spec_float] at precision 53); the engine is also read over the
      rational numbers, to tell what it computes apart from how the floats
      round. *)

From stdpp Require Import gmap strings list fin_maps pretty sorting.
From Stdlib Require Import Ascii QArith Qpower Qabs Qcanon SpecFloat Lqa.

Open Scope Z_scope.

(** ** Python values and builtins *)

Inductive py_exn : Type :=
  | ValueError (msg : string)
  | AttributeError (msg : string).

Inductive result (A : Type) : Type :=
  | Ok (a : A)
  | Raise (e : py_exn).
Arguments Ok {A} a.
Arguments Raise {A} e.

#[global] Instance result_ret : MRet result := λ A a, Ok a.

#[global] Instance result_bind : MBind result := λ A B k m,
  match m with
  | Ok a => k a
  | Raise e => Raise e
  end.

(** Truth value of [not x] for [x] a string or [None]. *)
Definition py_not (x : option string) : bool :=
  match x with
  | None => true
  | Some s => bool_decide (s = "")
  end.

(** [x == s] for [x] a string or [None] and [s] a string. *)
Definition py_eq (x : option string) (s : string) : bool :=
  match x with
  | None => false
  | Some t => bool_decide (t = s)
  end.

(** [s.rstrip(chars)] for a one-character [chars]. *)
Fixpoint rstrip (ch : ascii) (s : string) : string :=
  match s with
  | EmptyString => EmptyString
  | String c r =>
      match rstrip ch r with
      | EmptyString => if bool_decide (c = ch) then EmptyString else String c EmptyString
      | r' => String c r'
      end
  end.

(** White space as [int] sees it, a character being a code point below
    256: the six characters of C's [isspace], which [int] skips at both ends
    of the literal, and the two further characters of that range that are
    white space in Unicode, U+0085 and U+00A0, which [int] turns into blanks
    beforehand.  The separators U+001C to U+001F are not among them. *)
Definition is_space (c : ascii) : bool :=
  let n := nat_of_ascii c in
  bool_decide (n = 32 ∨ (9 ≤ n ≤ 13) ∨ n = 133 ∨ n = 160)%nat.

Fixpoint lstrip_space (s : string) : string :=
  match s with
  | EmptyString => EmptyString
  | String c r => if is_space c then lstrip_space r else s
  end.

Fixpoint rstrip_space (s : string) : string :=
  match s with
  | EmptyString => EmptyString
  | String c r =>
      match rstrip_space r with
      | EmptyString => if is_space c then EmptyString else String c EmptyString
      | r' => String c r'
      end
  end.

Definition digit_value (c : ascii) : option Z :=
  let n := nat_of_ascii c in
  if bool_decide (48 ≤ n ≤ 57)%nat then Some (Z.of_nat n - 48) else None.

(** The digits of a decimal literal; a single underscore may stand between
    two digits.  [after_digit] tells whether the previous character was a
    digit. *)
Fixpoint int_digits (acc : Z) (after_digit : bool) (s : string) : option Z :=
  match s with
  | EmptyString => if after_digit then Some acc else None
  | String c r =>
      match digit_value c with
      | Some d => int_digits (10 * acc + d) true r
      | None =>
          if bool_decide (c = "_"%char) && after_digit
          then int_digits acc false r
          else None
      end
  end.

(** The run of digits and underscores at the head of [s], and what follows
    it. *)
Fixpoint digit_run (s : string) : string * string :=
  match s with
  | EmptyString => (EmptyString, EmptyString)
  | String c r =>
      if bool_decide (is_Some (digit_value c) ∨ c = "_"%char)
      then let '(run, rest) := digit_run r in (String c run, rest)
      else (EmptyString, s)
  end.

Fixpoint count_digits (s : string) : nat :=
  match s with
  | EmptyString => 0
  | String c r =>
      match digit_value c with
      | Some _ => S (count_digits r)
      | None => count_digits r
      end
  end.

(** [sys.get_int_max_str_digits()], as Python starts. *)
Definition int_max_str_digits : nat := 4300.

(** [int(s)], base ten: surrounding white space, an optional sign, then the
    run of digits, which has to be well formed, within the limit of
    [int_max_str_digits] digits and followed by nothing. *)
Definition int (s : string) : result Z :=
  let t := rstrip_space (lstrip_space s) in
  let '(sign, body) :=
    match t with
    | String "+" r => (1, r)
    | String "-" r => (-1, r)
    | _ => (1, t)
    end in
  let '(run, rest) := digit_run body in
  let invalid :=
    ValueError ("invalid literal for int() with base 10: '" +:+ s +:+ "'") in
  match int_digits 0 false run with
  | None => Raise invalid
  | Some n =>
      if bool_decide (int_max_str_digits < count_digits run)%nat then
        Raise (ValueError
                 ("Exceeds the limit (4300 digits) for integer string conversion: "
                  +:+ "value has " +:+ pretty (count_digits run)
                  +:+ " digits; use sys.set_int_max_str_digits() "
                  +:+ "to increase the limit"))
      else
        match rest with
        | EmptyString => Ok (sign * n)
        | _ => Raise invalid
        end
  end.

(** ** Section 1 of the script: the question bank *)

Module Question.
Record t : Type := mk {
  id : Z;
  round : string;
  prompt : string;
  qtype : string;
  option_1 : string;
  option_2 : string;
  correct : Z;
}.
End Question.

(** The example bank of the script, which the bank read from
    [questions.csv] then replaces; the dash of its round labels is written
    as a hyphen. *)
Definition EXAMPLE_QUESTIONS : list Question.t :=
  [ Question.mk 1 "Round 1 - Example T/F"
      "The blue whale is the largest animal species on Earth."
      "tf" "True" "False" 1;
    Question.mk 2 "Round 1 - Example T/F"
      "Polar bears naturally live in Antarctica."
      "tf" "True" "False" 2;
    Question.mk 3 "Round 2 - Example history"
      "Who was born first?"
      "either" "Leonardo da Vinci" "Albert Einstein" 1;
    Question.mk 4 "Round 3 - Example population"
      "Which country had more people in 2019?"
      "either" "Brazil" "Norway" 1 ].

Definition CONFIDENCE_LEVELS : list Z := [55; 65; 75; 85; 95].

(** The labels of the confidence radio, [f"{c}%"] for each level. *)
Definition confidence_labels : list string :=
  (λ c, pretty c +:+ "%") <$> CONFIDENCE_LEVELS.

(** ** Section 3 of the script: scoring logic *)

Module Row.
Record t : Type := mk {
  id : Z;
  round : string;
  prompt : string;
  selected_answer : string;
  correct_answer : string;
  is_correct : bool;
  confidence_percent : Z;
}.
End Row.

Definition ans_key (q : Question.t) : string := "ans_" +:+ pretty (Question.id q).
Definition conf_key (q : Question.t) : string := "conf_" +:+ pretty (Question.id q).

(** [q["option_1"] if q["correct"] == 1 else q["option_2"]] *)
Definition correct_option_text (q : Question.t) : string :=
  if bool_decide (Question.correct q = 1) then Question.option_1 q
  else Question.option_2 q.

(** The dict appended to [rows] for an answered question. *)
Definition scored_row (q : Question.t) (ans : string) (conf_percent : Z) : Row.t :=
  let correct_option_text := correct_option_text q in
  let is_correct := bool_decide (ans = correct_option_text) in
  {| Row.id := Question.id q;
     Row.round := Question.round q;
     Row.prompt := Question.prompt q;
     Row.selected_answer := ans;
     Row.correct_answer := correct_option_text;
     Row.is_correct := is_correct;
     Row.confidence_percent := conf_percent |}.

(** One iteration of the loop of [collect_responses]: [Ok None] is
    [continue], [Ok (Some r)] is [rows.append(r)].  The last branch is what
    Python would do with a [None] past the guard; the guard never lets one
    through. *)
Definition collect_row (session_state : gmap string string) (q : Question.t)
    : result (option Row.t) :=
  let ans := session_state !! ans_key q in
  let conf_str := session_state !! conf_key q in
  if py_not ans || py_eq ans "?" || py_not conf_str || py_eq conf_str "?"
  then Ok None
  else
    match ans, conf_str with
    | Some ans, Some conf_str =>
        conf_percent ← int (rstrip "%" conf_str);
        Ok (Some (scored_row q ans conf_percent))
    | _, _ => Raise (AttributeError "'NoneType' object has no attribute 'rstrip'")
    end.

Fixpoint collect_loop (session_state : gmap string string)
    (questions : list Question.t) (rows : list Row.t) : result (list Row.t) :=
  match questions with
  | [] => Ok rows
  | q :: questions' =>
      o ← collect_row session_state q;
      match o with
      | None => collect_loop session_state questions' rows
      | Some r => collect_loop session_state questions' (rows ++ [r])
      end
  end.

(** The DataFrame of the collected rows; with no row it is the empty frame
    with the seven columns, which is the empty list of rows as well. *)
Definition collect_responses (session_state : gmap string string)
    (questions : list Question.t) : result (list Row.t) :=
  rows ← collect_loop session_state questions [];
  match rows with
  | [] => Ok []
  | _ => Ok rows
  end.

(** *** Float arithmetic *)

(** The float operations that the engine uses.  The engine is written once
    and read in two arithmetics: [binary64], the floats of Python, and
    [exact], the rational numbers. *)
Record arithmetic : Type := {
  float : Type;
  of_int : Z → float;
  fadd : float → float → float;
  fsub : float → float → float;
  fmul : float → float → float;
  fdiv : float → float → float;
  nan : float;
}.

Definition prec : Z := 53.
Definition emax : Z := 1024.

(** IEEE 754 double precision, rounding to nearest even.  A division by
    zero gives an infinity or NaN, never an exception, as in pandas. *)
Definition binary64 : arithmetic := {|
  float := spec_float;
  of_int n := binary_normalize prec emax n 0 false;
  fadd := SFadd prec emax;
  fsub := SFsub prec emax;
  fmul := SFmul prec emax;
  fdiv := SFdiv prec emax;
  nan := S754_nan;
|}.

Definition Z2Qc (n : Z) : Qc := Q2Qc (inject_Z n).

Definition exact_op (f : Qc → Qc → Qc) (x y : option Qc) : option Qc :=
  a ← x; b ← y; Some (f a b).

Definition exact_div (x y : option Qc) : option Qc :=
  a ← x; b ← y; if decide (b = Q2Qc 0) then None else Some (a / b)%Qc.

(** The rational numbers, with [None] where no number is defined. *)
Definition exact : arithmetic := {|
  float := option Qc;
  of_int n := Some (Z2Qc n);
  fadd := exact_op Qcplus;
  fsub := exact_op Qcminus;
  fmul := exact_op Qcmult;
  fdiv := exact_div;
  nan := None;
|}.

(** *** Columns *)

(** [Series.astype(int)] on one boolean. *)
Definition astype_int (b : bool) : Z := if b then 1 else 0.

(** [Series.sum()] of a boolean column, an integer. *)
Definition sum_bool (bs : list bool) : Z := foldr (λ b acc, astype_int b + acc) 0 bs.

(** *** [groupby] *)

(** The distinct keys in ascending order ([groupby] sorts its keys). *)
Fixpoint insert_key (k : Z) (ks : list Z) : list Z :=
  match ks with
  | [] => [k]
  | k' :: ks' =>
      if bool_decide (k < k') then k :: ks
      else if bool_decide (k = k') then ks
      else k' :: insert_key k ks'
  end.

Definition sorted_keys (ks : list Z) : list Z := foldr insert_key [] ks.

(** [df.groupby(key)]: each distinct key with the rows that carry it, in
    the order of the frame. *)
Definition groupby {A : Type} (key : A → Z) (df : list A) : list (Z * list A) :=
  (λ k, (k, filter (λ r, key r = k) df)) <$> sorted_keys (key <$> df).

Module Bucket.
Record t (F : Type) : Type := mk {
  confidence_percent : Z;
  n_questions : Z;
  n_correct : Z;
  percent_correct : F;
  stated_confidence : Z;
}.
Arguments mk {F} _ _ _ _ _.
Arguments confidence_percent {F} _.
Arguments n_questions {F} _.
Arguments n_correct {F} _.
Arguments percent_correct {F} _.
Arguments stated_confidence {F} _.
End Bucket.

Inductive calibration (F : Type) : Type :=
  | EmptyFrame (df : list Row.t)
  | Calibration (grouped : list (Bucket.t F)) (brier accuracy : F) (n : nat).
Arguments EmptyFrame {F} df.
Arguments Calibration {F} grouped brier accuracy n.

Inductive ui_event (F : Type) : Type :=
  | Warning (msg : string)
  | Summary (n_used : nat) (accuracy brier_score : F)
  | Table (rows : list (Bucket.t F))
  | Chart (rows : list (Bucket.t F)).
Arguments Warning {F} msg.
Arguments Summary {F} n_used accuracy brier_score.
Arguments Table {F} rows.
Arguments Chart {F} rows.

Section Engine.

Variable fl : arithmetic.

(** The sum of a float column is numpy's: its [add] loop starts from 0 and
    adds the pairwise sum of the values to it. *)

(** The block loop of the pairwise sum on at least eight values: eight
    accumulators take every eighth value each, for as long as eight values
    are left; then the accumulators are added up in pairs, and the values
    left over, fewer than eight, are added to that sum one by one. *)
Fixpoint sum_unrolled (r0 r1 r2 r3 r4 r5 r6 r7 : float fl)
    (xs : list (float fl)) : float fl :=
  match xs with
  | x0 :: x1 :: x2 :: x3 :: x4 :: x5 :: x6 :: x7 :: xs' =>
      sum_unrolled (fadd fl r0 x0) (fadd fl r1 x1) (fadd fl r2 x2)
        (fadd fl r3 x3) (fadd fl r4 x4) (fadd fl r5 x5) (fadd fl r6 x6)
        (fadd fl r7 x7) xs'
  | _ =>
      foldl (fadd fl)
        (fadd fl (fadd fl (fadd fl r0 r1) (fadd fl r2 r3))
                 (fadd fl (fadd fl r4 r5) (fadd fl r6 r7)))
        xs
  end.

(** The pairwise sum of a block: fewer than eight values are added up one by
    one; from eight values on the first eight start the accumulators. *)
Definition sum_block (xs : list (float fl)) : float fl :=
  match xs with
  | x0 :: x1 :: x2 :: x3 :: x4 :: x5 :: x6 :: x7 :: xs' =>
      sum_unrolled x0 x1 x2 x3 x4 x5 x6 x7 xs'
  | _ => foldl (fadd fl) (of_int fl 0) xs
  end.

(** The pairwise sum: a column of more than 128 values is cut in two, the
    first part being half of it rounded down to a multiple of eight, and the
    sums of the two parts are added.  [depth] bounds the number of cuts; the
    length of the column is enough of it ([pairwise_sum_unfold]). *)
Fixpoint pairwise_sum_rec (depth : nat) (xs : list (float fl)) : float fl :=
  match depth with
  | S depth' =>
      let n := length xs in
      if bool_decide (128 < n)%nat then
        let n2 := (n / 2 - (n / 2) mod 8)%nat in
        fadd fl (pairwise_sum_rec depth' (take n2 xs))
                (pairwise_sum_rec depth' (drop n2 xs))
      else sum_block xs
  | O => sum_block xs
  end.

Definition pairwise_sum (xs : list (float fl)) : float fl :=
  pairwise_sum_rec (length xs) xs.

(** [Series.mean()] of a float column: the sum of the values divided by
    their number; NaN on an empty column. *)
Definition mean (xs : list (float fl)) : float fl :=
  match xs with
  | [] => nan fl
  | _ => fdiv fl (fadd fl (of_int fl 0) (pairwise_sum xs))
           (of_int fl (Z.of_nat (length xs)))
  end.

(** [Series.mean()] of a boolean column: the integer sum of the column
    divided by the number of its values. *)
Definition mean_bool (bs : list bool) : float fl :=
  match bs with
  | [] => nan fl
  | _ => fdiv fl (of_int fl (sum_bool bs)) (of_int fl (Z.of_nat (length bs)))
  end.

(** [.agg(["size", "sum"])] on the [is_correct] column of one group, renamed
    and with the key back as a column, then the two derived columns. *)
Definition bucket_of_group (g : Z * list Row.t) : Bucket.t (float fl) :=
  let is_correct := Row.is_correct <$> g.2 in
  let n_questions := Z.of_nat (length is_correct) in
  let n_correct := sum_bool is_correct in
  {| Bucket.confidence_percent := g.1;
     Bucket.n_questions := n_questions;
     Bucket.n_correct := n_correct;
     Bucket.percent_correct :=
       fmul fl (fdiv fl (of_int fl n_correct) (of_int fl n_questions))
         (of_int fl 100);
     Bucket.stated_confidence := g.1 |}.

(** [compute_calibration(df)].  On an empty frame the frame itself is
    returned, not a tuple.  [d ** 2] on a float column is the product
    [d * d]. *)
Definition compute_calibration (df : list Row.t) : calibration (float fl) :=
  match df with
  | [] => EmptyFrame df
  | _ =>
      let grouped := bucket_of_group <$> groupby Row.confidence_percent df in
      let conf_prob :=
        (λ c, fdiv fl (of_int fl c) (of_int fl 100))
          <$> (Row.confidence_percent <$> df) in
      let outcome := astype_int <$> (Row.is_correct <$> df) in
      let brier :=
        mean ((λ d, fmul fl d d)
                <$> zip_with (λ p o, fsub fl p (of_int fl o)) conf_prob outcome) in
      let accuracy :=
        if bool_decide (0 < length df)%nat
        then mean_bool (Row.is_correct <$> df)
        else nan fl in
      Calibration grouped brier accuracy (length df)
  end.

(** *** The handler of the score button *)

(** What the script does when [score_button] is true.  The engine is a
    parameter so that a run which does not call it is a run whose outcome
    does not depend on it. *)
Definition score_with (engine : list Row.t → calibration (float fl))
    (session_state : gmap string string) (questions : list Question.t)
    : result (list (ui_event (float fl))) :=
  responses_df ← collect_responses session_state questions;
  if bool_decide (length responses_df < 1)%nat then
    Ok [Warning "You need to answer at least one questions."]
  else
    match engine responses_df with
    | Calibration calib_df brier_score accuracy n_used =>
        Ok [Summary n_used accuracy brier_score; Table calib_df; Chart calib_df]
    | EmptyFrame _ => Raise (ValueError "too many values to unpack (expected 4)")
    end.

Definition score (session_state : gmap string string)
    (questions : list Question.t) : result (list (ui_event (float fl))) :=
  score_with compute_calibration session_state questions.

(** The Brier term of one row: [(confidence_percent / 100 - outcome) ** 2]. *)
Definition row_squared_error (r : Row.t) : float fl :=
  let d := fsub fl (fdiv fl (of_int fl (Row.confidence_percent r)) (of_int fl 100))
             (of_int fl (astype_int (Row.is_correct r))) in
  fmul fl d d.

End Engine.

(** *** Loading the bank *)

(** [pd.read_csv("questions.csv", sep=",").to_dict("records")], from the
    parsed lines on: one dict per line, handed on as read. *)
Definition load_questions (records : list Question.t) : result (list Question.t) :=
  Ok records.

(** ** Notions of the specification *)

(** A field of the input that the collector treats as not filled in. *)
Definition blank (s : string) : Prop := s = "" ∨ s = "?".

#[global] Instance blank_dec s : Decision (blank s).
Proof. unfold blank. apply _. Defined.

(** The confidence string is a decimal integer once its trailing percent
    signs are removed. *)
Definition reads_as_int (conf_str : string) : Prop :=
  ∃ n, int (rstrip "%" conf_str) = Ok n.

(** The question has a row in the collected responses. *)
Definition included (q : Question.t) (rows : list Row.t) : Prop :=
  ∃ r, r ∈ rows ∧ Row.id r = Question.id q.

(** The data model's invariant on the bank: unique ids, [correct] 1 or 2. *)
Definition well_formed_bank (bank : list Question.t) : Prop :=
  NoDup (Question.id <$> bank) ∧
  Forall (λ q, Question.correct q = 1 ∨ Question.correct q = 2) bank.

(** The Brier term of one scored response and the arithmetic mean, as the
    specification words them. *)
Definition outcome (r : Row.t) : Qc :=
  if Row.is_correct r then Q2Qc 1 else Q2Qc 0.

Definition squared_error (r : Row.t) : Qc :=
  ((Z2Qc (Row.confidence_percent r) / Z2Qc 100 - outcome r) ^ 2)%Qc.

Definition sum_Qc (xs : list Qc) : Qc := foldr Qcplus (Q2Qc 0) xs.

Definition arithmetic_mean (xs : list Qc) : Qc :=
  (sum_Qc xs / Z2Qc (Z.of_nat (length xs)))%Qc.

(** [x] lies within a relative distance of [2 ^ -52] of the float value
    [v]: what one rounding of [x] to 53 bits of precision gives, with room
    to spare. *)
Definition within_rounding (v x : Q) : Prop :=
  (v * (1 - (1 # 4503599627370496)) <= x <= v * (1 + (1 # 4503599627370496)))%Q.

(** The rational number that a float stands for, if it is finite. *)
Definition float_value (x : spec_float) : option Q :=
  match x with
  | S754_zero _ => Some 0%Q
  | S754_finite s m e =>
      Some (inject_Z (if s then Z.neg m else Z.pos m) * 2 ^ e)%Q
  | _ => None
  end.

Definition sum_Z (xs : list Z) : Z := foldr Z.add 0 xs.

(** ** Concrete inputs used by the examples *)

Definition demo_session : gmap string string :=
  <["ans_1" := "True"]> (<["conf_1" := "75%"]>
  (<["ans_2" := "True"]> (<["conf_2" := "95%"]>
  (<["ans_3" := "Leonardo da Vinci"]> ∅)))).

Definition demo_rows : list Row.t :=
  [ scored_row (Question.mk 1 "R" "P1" "tf" "True" "False" 1) "True" 75;
    scored_row (Question.mk 2 "R" "P2" "tf" "True" "False" 2) "True" 95;
    scored_row (Question.mk 3 "R" "P3" "tf" "True" "False" 2) "False" 55;
    scored_row (Question.mk 4 "R" "P4" "tf" "True" "False" 1) "False" 75 ].

(** Three incorrect answers, two at 55% and one at 85%, in two orders. *)
Definition low_first : list Row.t :=
  [ scored_row (Question.mk 1 "R" "P1" "tf" "True" "False" 1) "False" 55;
    scored_row (Question.mk 2 "R" "P2" "tf" "True" "False" 1) "False" 55;
    scored_row (Question.mk 3 "R" "P3" "tf" "True" "False" 1) "False" 85 ].

Definition high_first : list Row.t :=
  [ scored_row (Question.mk 3 "R" "P3" "tf" "True" "False" 1) "False" 85;
    scored_row (Question.mk 1 "R" "P1" "tf" "True" "False" 1) "False" 55;
    scored_row (Question.mk 2 "R" "P2" "tf" "True" "False" 1) "False" 55 ].

(** A question whose correct option is the text "?", answered with it. *)
Definition mark_question : Question.t :=
  Question.mk 7 "Round 4 - Punctuation" "Which mark ends a question?"
    "either" "?" "!" 1.

Definition mark_session : gmap string string :=
  <["ans_7" := "?"]> (<["conf_7" := "95%"]> ∅).

(** A question whose correct option is the empty text, answered with the
    other option. *)
Definition empty_option_question : Question.t :=
  Question.mk 8 "Round 4 - Punctuation" "Which text has no character?"
    "either" "" "x" 1.

Definition empty_option_session : gmap string string :=
  <["ans_8" := "x"]> (<["conf_8" := "75%"]> ∅).

(** A record whose [correct] is neither 1 nor 2, answered "False". *)
Definition unscoreable_question : Question.t :=
  Question.mk 1 "Round 1 - Example T/F"
    "The blue whale is the largest animal species on Earth."
    "tf" "True" "False" 3.

Definition unscoreable_session : gmap string string :=
  <["ans_1" := "False"]> (<["conf_1" := "75%"]> ∅).

(** ** Section 2 of the script: the input form *)

(** [rounds.setdefault(name, []).append(q)] on a dict, which keeps its keys
    in the order of their first insertion. *)
Fixpoint setdefault_append (name : string) (q : Question.t)
    (rounds : list (string * list Question.t)) : list (string * list Question.t) :=
  match rounds with
  | [] => [(name, [q])]
  | (n, qs) :: rounds' =>
      if decide (n = name) then (n, qs ++ [q]) :: rounds'
      else (n, qs) :: setdefault_append name q rounds'
  end.

(** The loop that fills [rounds]. *)
Definition rounds (questions : list Question.t) : list (string * list Question.t) :=
  foldl (λ rounds q, setdefault_append (Question.round q) q rounds) [] questions.

Inductive widget : Type :=
  | Markdown (body : string)
  | Radio (label : string) (options : list string) (key : string)
      (index : option nat) (horizontal : bool).

(** The widgets of one question. *)
Definition render_question (q : Question.t) : list widget :=
  [ Markdown ("**Q" +:+ pretty (Question.id q) +:+ ". "
              +:+ Question.prompt q +:+ "**");
    Radio "Your answer:" [Question.option_1 q; Question.option_2 q]
      (ans_key q) None false;
    Radio "Your confidence:" confidence_labels (conf_key q) None true;
    Markdown "---" ].

(** One expander per round, with the widgets of its questions. *)
Definition render_form (questions : list Question.t) : list (string * list widget) :=
  (λ round, (round.1, round.2 ≫= render_question)) <$> rounds questions.

(** *** Section 5 of the script: the raw responses *)

Inductive raw_view : Type :=
  | Write (text : string)
  | ShowFrame (df : list Row.t).

Definition show_raw_responses (session_state : gmap string string)
    (questions : list Question.t) : result raw_view :=
  resp_debug ← collect_responses session_state questions;
  match resp_debug with
  | [] => Ok (Write "No responses yet.")
  | _ => Ok (ShowFrame resp_debug)
  end.

(** ** Further notions *)

(** The session holds, under each key, an option of a radio of the form
    with that key: what the radios of Streamlit store. *)
Definition chosen_from (form : list (string * list widget))
    (session_state : gmap string string) : Prop :=
  ∀ key v, session_state !! key = Some v →
    ∃ round label options index horizontal,
      round ∈ form ∧ Radio label options key index horizontal ∈ round.2 ∧
      v ∈ options.

(** The keys under which the radios of a form store their values, in the
    order of the form. *)
Definition radio_key (w : widget) : option string :=
  match w with
  | Radio _ _ key _ _ => Some key
  | Markdown _ => None
  end.

Definition radio_keys (form : list (string * list widget)) : list string :=
  round ← form; omap radio_key round.2.

(** The two keys of a question. *)
Definition question_keys (q : Question.t) : list string := [ans_key q; conf_key q].

(** A field of the input that is present and not blank. *)
Definition filled (x : option string) : Prop :=
  match x with
  | Some s => ¬ blank s
  | None => False
  end.

#[global] Instance filled_dec x : Decision (filled x).
Proof. destruct x; apply _. Defined.

(** Both fields of the question are filled in. *)
Definition answered (session_state : gmap string string) (q : Question.t) : Prop :=
  filled (session_state !! ans_key q) ∧ filled (session_state !! conf_key q).

#[global] Instance answered_dec ss q : Decision (answered ss q).
Proof. unfold answered. apply _. Defined.

(** The first occurrences of the elements of a list, in order. *)
Definition first_occurrences (names : list string) : list string :=
  reverse (remove_dups (reverse names)).

(** A round label with the questions of the bank that carry it. *)
Definition round_group (questions : list Question.t) (name : string)
    : string * list Question.t :=
  (name, filter (λ q, Question.round q = name) questions).

(** The sum of the Brier terms of the rows of one bucket, from its counts:
    [n_correct] rows at distance [c / 100 - 1] and the others at distance
    [c / 100]. *)
Definition bucket_squared_error (b : Bucket.t (option Qc)) : Qc :=
  (Z2Qc (Bucket.n_correct b)
     * (Z2Qc (Bucket.stated_confidence b) / Z2Qc 100 - Q2Qc 1) ^ 2
   + Z2Qc (Bucket.n_questions b - Bucket.n_correct b)
     * (Z2Qc (Bucket.stated_confidence b) / Z2Qc 100) ^ 2)%Qc.

(** Every character of [s] is a decimal digit. *)
Fixpoint all_digits (s : string) : bool :=
  match s with
  | EmptyString => true
  | String c s' => bool_decide (is_Some (digit_value c)) && all_digits s'
  end.

(** The last character of [s] is [ch]. *)
Fixpoint ends_with (ch : ascii) (s : string) : bool :=
  match s with
  | EmptyString => false
  | String c EmptyString => bool_decide (c = ch)
  | String _ s' => ends_with ch s'
  end.

Fixpoint repeat_char (ch : ascii) (n : nat) : string :=
  match n with
  | O => EmptyString
  | S n' => String ch (repeat_char ch n')
  end.

(** * Properties *)

(** ** Builtins *)

Lemma py_guard_false (ans conf_str : option string) :
  py_not ans || py_eq ans "?" || py_not conf_str || py_eq conf_str "?" = false ↔
  ∃ a c, ans = Some a ∧ conf_str = Some c ∧ ¬ blank a ∧ ¬ blank c.
Proof.
  unfold blank. split.
  - destruct ans as [a|], conf_str as [c|]; simpl; try done.
    + rewrite !orb_false_iff, !bool_decide_eq_false.
      intros [[[? ?] ?] ?]. exists a, c. tauto.
    + rewrite !orb_false_iff. intros [[_ [=]] _].
  - intros (a & c & -> & -> & Ha & Hc). simpl.
    rewrite !orb_false_iff, !bool_decide_eq_false. tauto.
Qed.

Lemma py_guard_true (ans conf_str : option string) :
  py_not ans || py_eq ans "?" || py_not conf_str || py_eq conf_str "?" = true ↔
  ans = None ∨ conf_str = None ∨
  (∃ a, ans = Some a ∧ blank a) ∨ (∃ c, conf_str = Some c ∧ blank c).
Proof.
  destruct (_ || _ || _ || _) eqn:Hg.
  - split; [intros _|done].
    destruct ans as [a|]; [|by left].
    destruct conf_str as [c|]; [|by right; left].
    destruct (decide (blank a)); [right; right; left; by exists a|].
    destruct (decide (blank c)); [right; right; right; by exists c|].
    assert (true = false) as Hf; [|done].
    rewrite <- Hg. apply py_guard_false. by exists a, c.
  - apply py_guard_false in Hg as (a & c & -> & -> & Ha & Hc).
    split; [done|]. intros [?|[?|[(? & [= <-] & ?)|(? & [= <-] & ?)]]]; done.
Qed.

Lemma int_labels :
  Forall2 (λ label c, int (rstrip "%" label) = Ok c)
    confidence_labels CONFIDENCE_LEVELS.
Proof. repeat constructor. Qed.

(** ** The Response Collector *)

Lemma collect_row_skip (ss : gmap string string) q :
  collect_row ss q = Ok None ↔
  ss !! ans_key q = None ∨ ss !! conf_key q = None ∨
  (∃ a, ss !! ans_key q = Some a ∧ blank a) ∨
  (∃ c, ss !! conf_key q = Some c ∧ blank c).
Proof.
  rewrite <- py_guard_true. unfold collect_row.
  destruct (_ || _ || _ || _) eqn:Hg; [done|].
  apply py_guard_false in Hg as (a & c & -> & -> & _ & _).
  split; [|done]. simpl. destruct (int _); simpl; done.
Qed.

Lemma collect_row_append (ss : gmap string string) q r :
  collect_row ss q = Ok (Some r) ↔
  ∃ a c n, ss !! ans_key q = Some a ∧ ss !! conf_key q = Some c ∧
    ¬ blank a ∧ ¬ blank c ∧ int (rstrip "%" c) = Ok n ∧ r = scored_row q a n.
Proof.
  unfold collect_row.
  destruct (_ || _ || _ || _) eqn:Hg.
  - split; [done|]. intros (a & c & n & Ha & Hc & Hba & Hbc & _).
    assert (true = false) as Hf; [|done].
    rewrite <- Hg. apply py_guard_false. by exists a, c.
  - apply py_guard_false in Hg as (a & c & -> & -> & Hba & Hbc). simpl. split.
    + destruct (int _) as [n|] eqn:Hn; simpl; [|done].
      intros [= <-]. by exists a, c, n.
    + intros (a' & c' & n & [= <-] & [= <-] & _ & _ & -> & ->). done.
Qed.

Lemma collect_row_raise (ss : gmap string string) q e :
  collect_row ss q = Raise e →
  ∃ a c, ss !! ans_key q = Some a ∧ ss !! conf_key q = Some c ∧
    ¬ blank a ∧ ¬ blank c ∧ int (rstrip "%" c) = Raise e.
Proof.
  unfold collect_row.
  destruct (_ || _ || _ || _) eqn:Hg; [done|].
  apply py_guard_false in Hg as (a & c & -> & -> & Hba & Hbc). simpl.
  destruct (int _) as [n|e'] eqn:Hn; simpl; [done|].
  intros [= <-]. by exists a, c.
Qed.

Lemma collect_loop_spec (ss : gmap string string) qs acc rows :
  collect_loop ss qs acc = Ok rows ↔
  ∃ os, Forall2 (λ q o, collect_row ss q = Ok o) qs os ∧
        rows = acc ++ omap id os.
Proof.
  revert acc. induction qs as [|q qs IH]; intros acc; simpl.
  - split.
    + intros [= <-]. exists []. split; [constructor|]. by rewrite app_nil_r.
    + intros (os & Hos & ->). apply Forall2_nil_inv_l in Hos as ->.
      simpl. by rewrite app_nil_r.
  - destruct (collect_row ss q) as [[r|]|e] eqn:Hq; simpl.
    + rewrite IH. split.
      * intros (os & Hos & ->). exists (Some r :: os).
        split; [by constructor|]. simpl. by rewrite <- app_assoc.
      * intros (os & Hos & ->).
        apply Forall2_cons_inv_l in Hos as (o & os' & Ho & Hos & ->).
        assert (o = Some r) as -> by congruence.
        exists os'. split; [done|]. simpl. by rewrite <- app_assoc.
    + rewrite IH. split.
      * intros (os & Hos & ->). exists (None :: os). split; [by constructor|done].
      * intros (os & Hos & ->).
        apply Forall2_cons_inv_l in Hos as (o & os' & Ho & Hos & ->).
        assert (o = None) as -> by congruence. by exists os'.
    + split; [done|]. intros (os & Hos & _).
      apply Forall2_cons_inv_l in Hos as (o & os' & Ho & _). congruence.
Qed.

Lemma collect_responses_loop (ss : gmap string string) qs :
  collect_responses ss qs = collect_loop ss qs [].
Proof.
  unfold collect_responses. destruct (collect_loop ss qs []) as [[|r rows]|e]; done.
Qed.

Lemma collect_responses_spec (ss : gmap string string) qs rows :
  collect_responses ss qs = Ok rows ↔
  ∃ os, Forall2 (λ q o, collect_row ss q = Ok o) qs os ∧ rows = omap id os.
Proof. rewrite collect_responses_loop. apply collect_loop_spec. Qed.

Lemma collect_responses_elem (ss : gmap string string) qs rows r :
  collect_responses ss qs = Ok rows →
  r ∈ rows ↔ ∃ q, q ∈ qs ∧ collect_row ss q = Ok (Some r).
Proof.
  rewrite collect_responses_spec. intros (os & Hos & ->).
  rewrite list_elem_of_omap. split.
  - intros (o & Ho & Heq). simpl in Heq. subst o.
    apply list_elem_of_lookup in Ho as [i Hi].
    destruct (Forall2_lookup_r _ _ _ _ _ Hos Hi) as (q & Hq & Hrow).
    exists q. split; [|done]. apply list_elem_of_lookup. eauto.
  - intros (q & Hq & Hrow).
    apply list_elem_of_lookup in Hq as [i Hi].
    destruct (Forall2_lookup_l _ _ _ _ _ Hos Hi) as (o & Ho & Hrow').
    exists o. split; [apply list_elem_of_lookup; eauto|].
    simpl. congruence.
Qed.

Lemma collect_responses_total (ss : gmap string string) qs :
  (∀ q c, q ∈ qs → ss !! conf_key q = Some c → blank c ∨ reads_as_int c) →
  ∃ rows, collect_responses ss qs = Ok rows.
Proof.
  intros Hconf.
  assert (∃ os, Forall2 (λ q o, collect_row ss q = Ok o) qs os) as [os Hos].
  { induction qs as [|q qs IH]; [exists []; constructor|].
    destruct IH as [os Hos].
    { intros q' c Hq'. apply Hconf. by right. }
    destruct (collect_row ss q) as [o|e] eqn:Hq.
    - exists (o :: os). by constructor.
    - apply collect_row_raise in Hq as (a & c & _ & Hc & _ & Hbc & Hint).
      destruct (Hconf q c) as [?|[n Hn]]; [by left|done|done|congruence]. }
  exists (omap id os). apply collect_responses_spec. eauto.
Qed.

Lemma keys_of_id q q' :
  Question.id q = Question.id q' →
  ans_key q = ans_key q' ∧ conf_key q = conf_key q'.
Proof. unfold ans_key, conf_key. by intros ->. Qed.

Lemma included_iff (ss : gmap string string) qs rows q :
  collect_responses ss qs = Ok rows →
  included q rows ↔
  ∃ q' a c n, q' ∈ qs ∧ Question.id q' = Question.id q ∧
    ss !! ans_key q = Some a ∧ ss !! conf_key q = Some c ∧
    ¬ blank a ∧ ¬ blank c ∧ int (rstrip "%" c) = Ok n ∧
    scored_row q' a n ∈ rows.
Proof.
  intros Hrows. unfold included. split.
  - intros (r & Hr & Hid).
    pose proof Hr as Hr'.
    apply (collect_responses_elem _ _ _ _ Hrows) in Hr' as (q' & Hq' & Hrow).
    apply collect_row_append in Hrow as (a & c & n & Ha & Hc & ? & ? & ? & ->).
    simpl in Hid. destruct (keys_of_id _ _ Hid) as [Hka Hkc].
    exists q', a, c, n. rewrite <- Hka, <- Hkc. done.
  - intros (q' & a & c & n & _ & Hid & _ & _ & _ & _ & _ & Hr).
    by exists (scored_row q' a n).
Qed.

(** C2.  Every row of the collected responses comes from a question of the
    bank and the text stored for its answer radio, and its [is_correct] is
    true exactly when that text equals the text of the option that the
    question's [correct] field names: [option_1] for 1, [option_2] for 2.
    The two texts are compared; no index is. *)
Theorem is_correct_by_option_text (ss : gmap string string) qs rows r :
  collect_responses ss qs = Ok rows →
  r ∈ rows →
  ∃ q ans,
    q ∈ qs ∧ Row.id r = Question.id q ∧
    ss !! ans_key q = Some ans ∧ Row.selected_answer r = ans ∧
    (Question.correct q = 1 →
       Row.is_correct r = true ↔ ans = Question.option_1 q) ∧
    (Question.correct q = 2 →
       Row.is_correct r = true ↔ ans = Question.option_2 q).
Proof.
  intros Hrows Hr.
  apply (collect_responses_elem _ _ _ _ Hrows) in Hr as (q & Hq & Hrow).
  apply collect_row_append in Hrow as (a & c & n & Ha & _ & _ & _ & _ & ->).
  exists q, a. split_and!; try done.
  - intros Hc. simpl. rewrite bool_decide_eq_true.
    unfold correct_option_text. by rewrite bool_decide_eq_true_2.
  - intros Hc. simpl. rewrite bool_decide_eq_true.
    unfold correct_option_text. rewrite bool_decide_eq_false_2; [done|lia].
Qed.

Lemma is_correct_by_option_text_witness :
  let r := scored_row (Question.mk 2 "Round 1 - Example T/F"
             "Polar bears naturally live in Antarctica." "tf" "True" "False" 2)
             "True" 95 in
  ∃ q ans,
    q ∈ EXAMPLE_QUESTIONS ∧ Row.id r = Question.id q ∧
    demo_session !! ans_key q = Some ans ∧ Row.selected_answer r = ans ∧
    (Question.correct q = 1 →
       Row.is_correct r = true ↔ ans = Question.option_1 q) ∧
    (Question.correct q = 2 →
       Row.is_correct r = true ↔ ans = Question.option_2 q).
Proof.
  intros r.
  apply (is_correct_by_option_text demo_session EXAMPLE_QUESTIONS
           [scored_row (Question.mk 1 "Round 1 - Example T/F"
              "The blue whale is the largest animal species on Earth."
              "tf" "True" "False" 1) "True" 75; r] r).
  - vm_compute. reflexivity.
  - apply list_elem_of_further, list_elem_of_here.
Defined.




(** C7.  When the collector yields no row, the handler of the score button
    shows the warning and nothing else: whatever the engine is, it is not
    consulted, and no bucket or statistic is produced. *)
Theorem no_response_warns (ss : gmap string string) qs :
  collect_responses ss qs = Ok [] →
  ∀ fl,
    (∀ engine, score_with fl engine ss qs
               = Ok [Warning "You need to answer at least one questions."]) ∧
    score fl ss qs = Ok [Warning "You need to answer at least one questions."].
Proof.
  intros Hrows fl. unfold score, score_with. rewrite Hrows. done.
Qed.

Lemma no_response_warns_witness :
  (∀ engine, score_with binary64 engine ∅ EXAMPLE_QUESTIONS
             = Ok [Warning "You need to answer at least one questions."]) ∧
  score binary64 ∅ EXAMPLE_QUESTIONS
  = Ok [Warning "You need to answer at least one questions."].
Proof. apply no_response_warns. vm_compute. reflexivity. Defined.

(** C8, as the claim states it, fails: a bank with a record whose [correct]
    is 3 is loaded, and its question is scored, as if option 2 were the
    correct one. *)
Lemma malformed_bank_loaded_and_scored :
  ¬ well_formed_bank [unscoreable_question] ∧
  load_questions [unscoreable_question] = Ok [unscoreable_question] ∧
  collect_responses unscoreable_session [unscoreable_question] =
    Ok [ Row.mk 1 "Round 1 - Example T/F"
           "The blue whale is the largest animal species on Earth."
           "False" "False" true 75 ] ∧
  ∃ grouped brier accuracy,
    score binary64 unscoreable_session [unscoreable_question] =
      Ok [Summary 1 accuracy brier; Table grouped; Chart grouped].
Proof.
  split_and!.
  - intros [_ Hc]. apply Forall_cons_1 in Hc as [[Hc|Hc] _]; discriminate Hc.
  - reflexivity.
  - by vm_compute.
  - do 3 eexists. reflexivity.
Qed.

(** C8 (amended).  Loading checks nothing: the records are handed on as
    read.  A record whose [correct] is not 1, be it 2 or anything else, is
    scored against the text of [option_2]. *)
Theorem bank_loaded_unchecked (records : list Question.t) :
  load_questions records = Ok records ∧
  ∀ (ss : gmap string string) q r,
    q ∈ records → Question.correct q ≠ 1 →
    collect_row ss q = Ok (Some r) →
    Row.correct_answer r = Question.option_2 q ∧
    (Row.is_correct r = true ↔ Row.selected_answer r = Question.option_2 q).
Proof.
  split; [done|]. intros ss q r _ Hc Hrow.
  apply collect_row_append in Hrow as (a & c & n & _ & _ & _ & _ & _ & ->).
  simpl. unfold correct_option_text. rewrite bool_decide_eq_false_2 by done.
  by rewrite bool_decide_eq_true.
Qed.

Lemma bank_loaded_unchecked_witness :
  let r := scored_row unscoreable_question "False" 75 in
  Row.correct_answer r = Question.option_2 unscoreable_question ∧
  (Row.is_correct r = true ↔
   Row.selected_answer r = Question.option_2 unscoreable_question).
Proof.
  intros r.
  apply (proj2 (bank_loaded_unchecked [unscoreable_question])
           unscoreable_session unscoreable_question r).
  - apply list_elem_of_here.
  - discriminate.
  - vm_compute. reflexivity.
Defined.

(** C10, as the claim states it, fails in its last part: the correct option
    of the question is the empty text, and the question is scored all the
    same, as incorrect, when the other option is selected. *)
Lemma empty_correct_option_scored :
  correct_option_text empty_option_question = "" ∧
  collect_responses empty_option_session [empty_option_question] =
    Ok [ Row.mk 8 "Round 4 - Punctuation" "Which text has no character?"
           "x" "" false 75 ] ∧
  included empty_option_question
    [ Row.mk 8 "Round 4 - Punctuation" "Which text has no character?"
        "x" "" false 75 ].
Proof.
  split_and!; [reflexivity|by vm_compute|].
  eexists. split; [apply list_elem_of_here|reflexivity].
Qed.

(** C10 (amended).  A question with both fields present is skipped, without
    error, when the selected text or the confidence string is empty or "?",
    and then has no row in the collected responses.  Consequently a question
    whose correct option is the empty text is never scored as correct: every
    row made for it, and every collected row whose correct answer is the
    empty text, has [is_correct] false. *)
Theorem blank_input_excluded (ss : gmap string string) qs :
  (∀ q a c, ss !! ans_key q = Some a → ss !! conf_key q = Some c →
     blank a ∨ blank c → collect_row ss q = Ok None) ∧
  (∀ q r, correct_option_text q = "" → collect_row ss q = Ok (Some r) →
     Row.is_correct r = false) ∧
  (∀ rows, collect_responses ss qs = Ok rows →
     (∀ q a c, ss !! ans_key q = Some a → ss !! conf_key q = Some c →
        blank a ∨ blank c → ¬ included q rows) ∧
     (∀ r, r ∈ rows → Row.correct_answer r = "" → Row.is_correct r = false)).
Proof.
  assert (∀ q r, collect_row ss q = Ok (Some r) →
            Row.correct_answer r = "" → Row.is_correct r = false) as Hrow.
  { intros q r Hr.
    apply collect_row_append in Hr as (a & c & n & _ & _ & Hba & _ & _ & ->).
    simpl. intros ->. apply bool_decide_eq_false. intros ->. apply Hba. by left. }
  split_and!.
  - intros q a c Ha Hc Hb. apply collect_row_skip.
    destruct Hb; [right; right; left; by exists a|right; right; right; by exists c].
  - intros q r Hq Hr. apply (Hrow q r Hr).
    apply collect_row_append in Hr as (a & c & n & _ & _ & _ & _ & _ & ->). done.
  - intros rows Hrows. split.
    + intros q a c Ha Hc Hb Hin.
      apply (included_iff _ _ _ _ Hrows) in Hin
        as (q' & a' & c' & n & _ & _ & Ha' & Hc' & Hba & Hbc & _).
      destruct Hb; congruence.
    + intros r Hr.
      apply (collect_responses_elem _ _ _ _ Hrows) in Hr as (q & _ & Hr).
      by apply (Hrow q).
Qed.

Lemma blank_input_excluded_witness :
  collect_row mark_session mark_question = Ok None.
Proof.
  apply (proj1 (blank_input_excluded mark_session [mark_question])
           mark_question "?" "95%").
  - reflexivity.
  - reflexivity.
  - left. right. reflexivity.
Defined.

(** ** The Calibration Engine *)

(** *** Sorted distinct keys *)

Lemma insert_key_elem k ks x : x ∈ insert_key k ks ↔ x = k ∨ x ∈ ks.
Proof.
  induction ks as [|k' ks IH]; simpl.
  - rewrite list_elem_of_singleton, elem_of_nil. tauto.
  - repeat case_bool_decide; subst; rewrite ?elem_of_cons, ?IH; tauto.
Qed.

Lemma insert_key_sorted k ks :
  StronglySorted Z.lt ks → StronglySorted Z.lt (insert_key k ks).
Proof.
  induction 1 as [|k' ks Hks IH Hk']; simpl.
  - repeat constructor.
  - repeat case_bool_decide.
    + constructor; [by constructor|].
      constructor; [done|]. eapply Forall_impl; [done|]. simpl. lia.
    + by constructor.
    + constructor; [done|]. apply Forall_forall. intros x Hx.
      apply insert_key_elem in Hx as [->|Hx]; [lia|].
      by eapply Forall_forall in Hk'.
Qed.

Lemma sorted_keys_elem ks x : x ∈ sorted_keys ks ↔ x ∈ ks.
Proof.
  induction ks as [|k ks IH]; simpl; [done|].
  rewrite insert_key_elem, elem_of_cons, IH. done.
Qed.

Lemma sorted_keys_sorted ks : StronglySorted Z.lt (sorted_keys ks).
Proof.
  induction ks; simpl; [constructor|by apply insert_key_sorted].
Qed.

Lemma sorted_lt_NoDup ks : StronglySorted Z.lt ks → NoDup ks.
Proof.
  induction 1 as [|k ks Hks IH Hk]; constructor; [|done].
  intros Hin. eapply Forall_forall in Hk; [|done]. lia.
Qed.

Lemma sorted_keys_NoDup ks : NoDup (sorted_keys ks).
Proof. apply sorted_lt_NoDup, sorted_keys_sorted. Qed.

Lemma sorted_keys_perm ks ks' : ks ≡ₚ ks' → sorted_keys ks = sorted_keys ks'.
Proof.
  intros Hp.
  apply (StronglySorted_unique_strong Z.lt);
    [intros; lia|apply sorted_keys_sorted..|].
  apply NoDup_Permutation; [apply sorted_keys_NoDup..|].
  intros x. rewrite !sorted_keys_elem. by rewrite Hp.
Qed.

(** *** Columns *)

Lemma sum_bool_bounds bs : 0 ≤ sum_bool bs ≤ Z.of_nat (length bs).
Proof.
  induction bs as [|[] bs IH]; simpl; unfold astype_int; lia.
Qed.

Lemma sum_bool_perm bs bs' : bs ≡ₚ bs' → sum_bool bs = sum_bool bs'.
Proof.
  induction 1; simpl; lia.
Qed.

(** The column of squared differences that the engine builds from the two
    columns of the frame is the column of the Brier terms of the rows. *)
Lemma squared_error_column fl (df : list Row.t) :
  (λ d, fmul fl d d) <$>
    zip_with (λ p o, fsub fl p (of_int fl o))
      ((λ c, fdiv fl (of_int fl c) (of_int fl 100))
         <$> (Row.confidence_percent <$> df))
      (astype_int <$> (Row.is_correct <$> df))
  = row_squared_error fl <$> df.
Proof.
  induction df as [|r df IH]; [done|].
  rewrite !fmap_cons. cbn [zip_with]. rewrite fmap_cons, IH. done.
Qed.

(** *** Groups *)

Lemma groupby_keys {A} (key : A → Z) (df : list A) :
  (groupby key df).*1 = sorted_keys (key <$> df).
Proof.
  unfold groupby. rewrite <- list_fmap_compose. apply list_fmap_id.
Qed.

Lemma groupby_elem {A} (key : A → Z) (df : list A) g :
  g ∈ groupby key df ↔
  (∃ r, r ∈ df ∧ key r = g.1) ∧ g.2 = filter (λ r, key r = g.1) df.
Proof.
  unfold groupby. rewrite list_elem_of_fmap. split.
  - intros (k & -> & Hk). simpl. split; [|done].
    apply sorted_keys_elem, list_elem_of_fmap in Hk as (r & -> & Hr). eauto.
  - intros [(r & Hr & Hk) Hg]. exists g.1. split.
    + destruct g; simpl in *. by subst.
    + apply sorted_keys_elem, list_elem_of_fmap. eauto.
Qed.

(** Every row falls in the group of exactly one of the distinct keys. *)
Lemma group_sizes {A} (key : A → Z) (ks : list Z) (df : list A) :
  NoDup ks → (∀ r, r ∈ df → key r ∈ ks) →
  sum_Z ((λ k, Z.of_nat (length (filter (λ r, key r = k) df))) <$> ks)
  = Z.of_nat (length df).
Proof.
  intros Hnd. revert df. induction Hnd as [|k ks Hk Hnd IH]; intros df Hin.
  - destruct df as [|r df]; [done|].
    specialize (Hin r (list_elem_of_here _ _)). by apply not_elem_of_nil in Hin.
  - rewrite fmap_cons. cbn [sum_Z foldr]. fold (sum_Z).
    assert ((λ k0, Z.of_nat (length (filter (λ r, key r = k0) df))) <$> ks
            = (λ k0, Z.of_nat (length (filter (λ r, key r = k0)
                                          (filter (λ r, ¬ key r = k) df)))) <$> ks)
      as ->.
    { apply Forall_fmap_ext_1, Forall_forall. intros k0 Hk0.
      rewrite list_filter_filter_l; [done|]. intros r -> ->. done. }
    rewrite IH.
    + rewrite <- Nat2Z.inj_add, <- length_app.
      by rewrite (Permutation_length (filter_app_complement _ df)).
    + intros r [Hr Hrdf]%list_elem_of_filter.
      apply Hin, elem_of_cons in Hrdf as [?|?]; done.
Qed.

Lemma bucket_of_group_perm fl k (g g' : list Row.t) :
  g ≡ₚ g' → bucket_of_group fl (k, g) = bucket_of_group fl (k, g').
Proof.
  intros Hp. unfold bucket_of_group. simpl.
  assert (Row.is_correct <$> g ≡ₚ Row.is_correct <$> g') as Hc by by rewrite Hp.
  by rewrite (sum_bool_perm _ _ Hc), (Permutation_length Hc).
Qed.

Lemma grouped_perm fl (df df' : list Row.t) :
  df ≡ₚ df' →
  bucket_of_group fl <$> groupby Row.confidence_percent df
  = bucket_of_group fl <$> groupby Row.confidence_percent df'.
Proof.
  intros Hp. unfold groupby.
  rewrite (sorted_keys_perm (Row.confidence_percent <$> df)
             (Row.confidence_percent <$> df')) by by rewrite Hp.
  rewrite <- !list_fmap_compose.
  apply Forall_fmap_ext_1, Forall_forall. intros k _. simpl.
  apply bucket_of_group_perm. by rewrite Hp.
Qed.

(** The buckets of a frame, one by one. *)
Lemma grouped_elem fl (df : list Row.t) b :
  b ∈ bucket_of_group fl <$> groupby Row.confidence_percent df ↔
  ∃ k, (∃ r, r ∈ df ∧ Row.confidence_percent r = k) ∧
       b = bucket_of_group fl
             (k, filter (λ r, Row.confidence_percent r = k) df).
Proof.
  rewrite list_elem_of_fmap. split.
  - intros ([k g] & -> & [Hk Hg]%groupby_elem). simpl in *. subst g. eauto.
  - intros (k & Hk & ->). eexists. split; [done|].
    apply groupby_elem. simpl. eauto.
Qed.

Lemma grouped_levels fl (df : list Row.t) :
  Bucket.stated_confidence <$>
    (bucket_of_group fl <$> groupby Row.confidence_percent df)
  = sorted_keys (Row.confidence_percent <$> df).
Proof.
  rewrite <- groupby_keys, <- list_fmap_compose. done.
Qed.

(** *** The engine on a frame with at least one row *)

Lemma compute_calibration_rows fl (df : list Row.t) :
  df ≠ [] →
  compute_calibration fl df =
    Calibration (bucket_of_group fl <$> groupby Row.confidence_percent df)
      (mean fl (row_squared_error fl <$> df))
      (mean_bool fl (Row.is_correct <$> df))
      (length df).
Proof.
  destruct df as [|r df]; [done|]. intros _.
  unfold compute_calibration. rewrite squared_error_column.
  by rewrite bool_decide_eq_true_2 by (simpl; lia).
Qed.

(** *** The sum of a column *)

(** The cuts of the pairwise sum never run out of [depth]: any depth from
    the length of the column on gives the same sum. *)
Lemma pairwise_sum_rec_depth fl (d d' : nat) (xs : list (float fl)) :
  (length xs ≤ d)%nat → (length xs ≤ d')%nat →
  pairwise_sum_rec fl d xs = pairwise_sum_rec fl d' xs.
Proof.
  revert d' xs. induction d as [|d IH]; intros d' xs Hd Hd'.
  - destruct xs; [|simpl in Hd; lia]. by destruct d'.
  - destruct d' as [|d'].
    { destruct xs; [done|simpl in Hd'; lia]. }
    cbn [pairwise_sum_rec]. case_bool_decide as Hn; [|done]. cbn zeta.
    pose proof (Nat.div_mod_eq (length xs) 2) as H2.
    pose proof (Nat.mod_upper_bound (length xs) 2) as H2'.
    pose proof (Nat.mod_upper_bound (length xs / 2) 8) as H8.
    f_equal; apply IH; rewrite ?length_take, ?length_drop; lia.
Qed.

(** The pairwise sum as numpy writes it. *)
Lemma pairwise_sum_unfold fl (xs : list (float fl)) :
  pairwise_sum fl xs =
    if bool_decide (128 < length xs)%nat then
      let n2 := (length xs / 2 - (length xs / 2) mod 8)%nat in
      fadd fl (pairwise_sum fl (take n2 xs)) (pairwise_sum fl (drop n2 xs))
    else sum_block fl xs.
Proof.
  unfold pairwise_sum at 1. destruct (length xs) as [|d] eqn:Hlen.
  { by rewrite bool_decide_eq_false_2 by lia. }
  cbn [pairwise_sum_rec]. rewrite Hlen. case_bool_decide as Hn; [|done].
  pose proof (Nat.div_mod_eq (S d) 2) as H2.
  pose proof (Nat.mod_upper_bound (S d) 2) as H2'.
  pose proof (Nat.mod_upper_bound (S d / 2) 8) as H8.
  cbn zeta. unfold pairwise_sum.
  f_equal; apply pairwise_sum_rec_depth;
    rewrite ?length_take, ?length_drop; lia.
Qed.

(** *** The engine over the rational numbers *)

Lemma Z2Qc_eq_0 n : Z2Qc n = Q2Qc 0 ↔ n = 0.
Proof.
  unfold Z2Qc. rewrite Q2Qc_eq_iff. unfold Qeq. simpl. lia.
Qed.

Lemma exact_row_squared_error r :
  row_squared_error exact r = Some (squared_error r).
Proof.
  unfold row_squared_error, squared_error, outcome. simpl.
  f_equal. destruct (Row.is_correct r); simpl;
    [change (Z2Qc 1) with (Q2Qc 1)|change (Z2Qc 0) with (Q2Qc 0)]; ring.
Qed.

Lemma sum_Qc_perm xs xs' : xs ≡ₚ xs' → sum_Qc xs = sum_Qc xs'.
Proof.
  induction 1 as [|x xs xs' _ IH|x y xs|xs xs' xs'' _ IH1 _ IH2]; simpl.
  - done.
  - by rewrite IH.
  - ring.
  - congruence.
Qed.

Lemma exact_sum (a : Qc) (xs : list Qc) :
  foldl (fadd exact) (Some a) (Some <$> xs) = Some (a + sum_Qc xs)%Qc.
Proof.
  revert a. induction xs as [|x xs IH]; intros a; simpl.
  - f_equal. ring.
  - rewrite IH. f_equal. ring.
Qed.

Lemma sum_Qc_app (xs ys : list Qc) :
  sum_Qc (xs ++ ys) = (sum_Qc xs + sum_Qc ys)%Qc.
Proof.
  induction xs as [|x xs IH]; simpl.
  - ring.
  - rewrite IH. ring.
Qed.

Lemma exact_sum_unrolled (n : nat) (xs : list Qc) (r0 r1 r2 r3 r4 r5 r6 r7 : Qc) :
  (length xs ≤ n)%nat →
  sum_unrolled exact (Some r0) (Some r1) (Some r2) (Some r3) (Some r4)
    (Some r5) (Some r6) (Some r7) (Some <$> xs)
  = Some (r0 + r1 + r2 + r3 + r4 + r5 + r6 + r7 + sum_Qc xs)%Qc.
Proof.
  revert xs r0 r1 r2 r3 r4 r5 r6 r7.
  induction n as [|n IH]; intros xs r0 r1 r2 r3 r4 r5 r6 r7 Hn;
    destruct xs as [|x0 [|x1 [|x2 [|x3 [|x4 [|x5 [|x6 [|x7 xs]]]]]]]];
    simpl in Hn; try lia; try (simpl; f_equal; ring).
  rewrite !fmap_cons. cbn [sum_unrolled fadd exact exact_op mbind option_bind].
  rewrite IH by lia. f_equal. unfold sum_Qc. cbn [foldr]. ring.
Qed.

Lemma exact_sum_block (xs : list Qc) :
  sum_block exact (Some <$> xs) = Some (sum_Qc xs).
Proof.
  destruct xs as [|x0 [|x1 [|x2 [|x3 [|x4 [|x5 [|x6 [|x7 xs]]]]]]]];
    try (simpl; f_equal; change (Z2Qc 0) with (Q2Qc 0); ring).
  rewrite !fmap_cons. cbn [sum_block].
  rewrite (exact_sum_unrolled (length xs)) by done.
  f_equal. unfold sum_Qc. cbn [foldr]. ring.
Qed.

Lemma exact_pairwise_sum_rec (depth : nat) (xs : list Qc) :
  pairwise_sum_rec exact depth (Some <$> xs) = Some (sum_Qc xs).
Proof.
  revert xs. induction depth as [|depth IH]; intros xs; simpl.
  - apply exact_sum_block.
  - case_bool_decide; [|apply exact_sum_block].
    rewrite length_fmap, <- fmap_take, <- fmap_drop, !IH. simpl.
    by rewrite <- sum_Qc_app, take_drop.
Qed.

Lemma exact_mean (xs : list Qc) :
  xs ≠ [] → mean exact (Some <$> xs) = Some (arithmetic_mean xs).
Proof.
  destruct xs as [|x xs]; [done|]. intros _.
  unfold mean. rewrite fmap_cons, <- fmap_cons.
  unfold pairwise_sum. rewrite exact_pairwise_sum_rec, length_fmap.
  set (n := Z.of_nat (length (x :: xs))).
  assert (n ≠ 0) as Hn by (unfold n; simpl; lia).
  cbn [fdiv fadd of_int exact exact_op mbind option_bind]. unfold exact_div.
  cbn [mbind option_bind].
  rewrite decide_False by by rewrite Z2Qc_eq_0.
  unfold arithmetic_mean. fold n. f_equal. f_equal.
  change (Z2Qc 0) with (Q2Qc 0). ring.
Qed.

Lemma exact_brier (df : list Row.t) :
  df ≠ [] →
  mean exact (row_squared_error exact <$> df)
  = Some (arithmetic_mean (squared_error <$> df)).
Proof.
  intros Hdf.
  rewrite (list_fmap_ext (row_squared_error exact) (Some ∘ squared_error))
    by (intros; apply exact_row_squared_error).
  rewrite list_fmap_compose. apply exact_mean. by destruct df.
Qed.

Lemma exact_percent (n_correct n_questions : Z) :
  n_questions ≠ 0 →
  fmul exact (fdiv exact (of_int exact n_correct) (of_int exact n_questions))
    (of_int exact 100)
  = Some (Z2Qc 100 * Z2Qc n_correct / Z2Qc n_questions)%Qc.
Proof.
  intros Hn. simpl. unfold exact_div. simpl.
  rewrite decide_False by by rewrite Z2Qc_eq_0.
  simpl. f_equal. unfold Qcdiv. ring.
Qed.

(** *** Rounding in binary64 *)

(** The operations of [binary64] on positive numbers with a full mantissa
    of 53 bits, away from overflow and underflow: the result has a full
    mantissa again and the exact result lies within its rounding. *)

(** A positive number of [d] binary digits lies in [[2^(d-1), 2^d)], and
    only such numbers do. *)
Lemma digits2_pos_bounds (p : positive) :
  2 ^ (Z.pos (digits2_pos p) - 1) ≤ Z.pos p < 2 ^ Z.pos (digits2_pos p).
Proof.
  induction p as [p IH|p IH|]; simpl digits2_pos.
  - rewrite Pos2Z.inj_succ.
    replace (Z.succ (Z.pos (digits2_pos p)) - 1)
      with (Z.succ (Z.pos (digits2_pos p) - 1)) by lia.
    rewrite !Z.pow_succ_r by lia. lia.
  - rewrite Pos2Z.inj_succ.
    replace (Z.succ (Z.pos (digits2_pos p)) - 1)
      with (Z.succ (Z.pos (digits2_pos p) - 1)) by lia.
    rewrite !Z.pow_succ_r by lia. lia.
  - simpl. lia.
Qed.

Lemma digits2_pos_unique (p : positive) (d : Z) :
  2 ^ (d - 1) ≤ Z.pos p < 2 ^ d → Z.pos (digits2_pos p) = d.
Proof.
  intros [Hl Hu]. pose proof (digits2_pos_bounds p) as [Hl' Hu'].
  assert (0 < d) as Hd.
  { destruct (decide (0 < d)); [done|].
    rewrite (Z.pow_neg_r 2 (d - 1)) in Hl by lia.
    assert (d = 0 ∨ d < 0) as [->|?] by lia; [simpl in Hu; lia|].
    rewrite Z.pow_neg_r in Hu by lia. lia. }
  set (d' := Z.pos (digits2_pos p)) in *.
  destruct (Z.lt_trichotomy d' d) as [Hlt|[?|Hgt]]; [|done|].
  - assert (2 ^ d' ≤ 2 ^ (d - 1)) by (apply Z.pow_le_mono_r; lia). lia.
  - assert (2 ^ d ≤ 2 ^ (d' - 1)) by (apply Z.pow_le_mono_r; lia). lia.
Qed.

(** Shifting right halves the mantissa, rounding down. *)
Lemma shr_1_m r : 0 ≤ shr_m r → shr_m (shr_1 r) = shr_m r / 2.
Proof.
  destruct r as [m rb sb]. simpl. intros Hm.
  destruct m as [|[p|p|]|p]; simpl; try reflexivity; try lia.
  - apply Z.div_unique with 1; lia.
  - apply Z.div_unique with 0; lia.
Qed.

Lemma iter_pos_shr_1_m (n : positive) r :
  0 ≤ shr_m r → shr_m (iter_pos shr_1 n r) = shr_m r / 2 ^ Z.pos n.
Proof.
  revert r. induction n as [n IH|n IH|]; intros r Hr; simpl iter_pos.
  - assert (0 ≤ shr_m (shr_1 r))
      by (rewrite shr_1_m by done; apply Z.div_pos; lia).
    assert (0 ≤ shr_m (iter_pos shr_1 n (shr_1 r)))
      by (rewrite IH by done; apply Z.div_pos; lia).
    rewrite !IH, shr_1_m by done. rewrite !Z.div_div by lia.
    replace (Z.pos n~1) with (1 + Z.pos n + Z.pos n) by lia.
    rewrite !Z.pow_add_r by lia. rewrite Z.pow_1_r. f_equal. lia.
  - assert (0 ≤ shr_m (iter_pos shr_1 n r))
      by (rewrite IH by done; apply Z.div_pos; lia).
    rewrite !IH by done. rewrite Z.div_div by lia.
    replace (Z.pos n~0) with (Z.pos n + Z.pos n) by lia.
    by rewrite Z.pow_add_r by lia.
  - rewrite shr_1_m by done. by rewrite Z.pow_1_r.
Qed.

Lemma round_nearest_even_cases m l :
  round_nearest_even m l = m ∨ round_nearest_even m l = m + 1.
Proof.
  destruct l as [|[]]; simpl; auto. destruct (Z.even m); auto.
Qed.

Lemma loc_of_shr_record_of_loc m l :
  loc_of_shr_record (shr_record_of_loc m l) = l.
Proof. by destruct l as [|[]]. Qed.

Lemma shr_fexp_m (m e : Z) l :
  0 < m →
  let n := fexp prec emax (Zdigits2 m + e) - e in
  ∃ r, shr_fexp prec emax m e l = (r, e + Z.max n 0) ∧
       shr_m r = m / 2 ^ Z.max n 0 ∧
       (n ≤ 0 → r = shr_record_of_loc m l).
Proof.
  intros Hm n. unfold shr_fexp. fold n. unfold shr.
  destruct n as [|p|p] eqn:Hn.
  - eexists. split_and!; [by rewrite Z.add_0_r| |done].
    simpl. destruct l as [|[]]; simpl; by rewrite Z.div_1_r.
  - eexists. split_and!; [done| |lia].
    rewrite iter_pos_shr_1_m; destruct l as [|[]]; simpl; try lia; done.
  - eexists. split_and!; [by rewrite Z.add_0_r| |done].
    simpl. destruct l as [|[]]; simpl; by rewrite Z.div_1_r.
Qed.

(** Rounding a mantissa of at least 53 bits: the result has 53 bits, its
    exponent is raised by the number [k] of bits dropped, and the mantissa
    it stands for, [m3 * 2^k], is less than [2^k] away from [m].  Nothing
    changes when 53 bits are rounded exactly. *)
Lemma binary_round_aux_normal s (m : positive) e l :
  let d := Z.pos (digits2_pos m) in
  53 ≤ d → -1074 ≤ d + e - 53 → d + e ≤ 1023 →
  ∃ (m3 : positive) (k : Z),
    binary_round_aux prec emax s (Z.pos m) e l = S754_finite s m3 (e + k) ∧
    2 ^ 52 ≤ Z.pos m3 < 2 ^ 53 ∧ d - 53 ≤ k ≤ d - 52 ∧
    (Z.pos m3 - 1) * 2 ^ k ≤ Z.pos m < (Z.pos m3 + 1) * 2 ^ k ∧
    (l = loc_Exact → d = 53 → m3 = m ∧ k = 0).
Proof.
  intros d Hd Hlo Hhi.
  pose proof (digits2_pos_bounds m) as [Hml Hmu]. fold d in Hml, Hmu.
  unfold binary_round_aux.
  destruct (shr_fexp_m (Z.pos m) e l) as (r1 & -> & Hr1 & Hr1'); [lia|].
  simpl Zdigits2 in *. fold d in Hr1, Hr1'.
  assert (fexp prec emax (d + e) - e = d - 53) as Hn1.
  { unfold fexp, emin, prec, emax. lia. }
  rewrite Hn1 in *. rewrite Z.max_l in * by lia.
  set (n1 := d - 53) in *.
  set (m1 := shr_m r1) in *.
  assert (0 < 2 ^ n1) as Hp1 by (apply Z.pow_pos_nonneg; lia).
  assert (2 ^ (d - 1) = 2 ^ 52 * 2 ^ n1 ∧ 2 ^ d = 2 ^ 53 * 2 ^ n1) as [Hd1 Hd2].
  { rewrite <- !Z.pow_add_r by lia. split; f_equal; lia. }
  assert (m1 * 2 ^ n1 ≤ Z.pos m < (m1 + 1) * 2 ^ n1) as Hm1'.
  { rewrite Hr1. split.
    - rewrite Z.mul_comm. apply Z.mul_div_le. lia.
    - rewrite Z.mul_comm. apply Z.mul_succ_div_gt. lia. }
  assert (2 ^ 52 ≤ m1 < 2 ^ 53) as Hm1.
  { rewrite Hr1. split.
    - apply Z.div_le_lower_bound; lia.
    - apply Z.div_lt_upper_bound; lia. }
  set (m2 := round_nearest_even m1 (loc_of_shr_record r1)).
  assert (m2 = m1 ∨ m2 = m1 + 1) as Hm2 by apply round_nearest_even_cases.
  assert (l = loc_Exact → d = 53 → m2 = Z.pos m) as Hexact.
  { intros -> Hd53. unfold m2, m1. rewrite Hr1' by lia. simpl. done. }
  fold d. rewrite Hn1, Z.max_l by lia.
  assert (0 < m2) as Hm2pos by lia.
  destruct (shr_fexp_m m2 (e + n1) loc_Exact Hm2pos) as (r2 & -> & Hr2 & Hr2').
  destruct (decide (m2 < 2 ^ 53)) as [Hlt|Hge].
  - destruct m2 as [|p2|p2] eqn:Hp2; [lia| |lia].
    assert (Z.pos (digits2_pos p2) = 53) as Hd2'.
    { apply digits2_pos_unique. simpl Z.sub. lia. }
    assert (fexp prec emax (Zdigits2 (Z.pos p2) + (e + n1)) - (e + n1) = 0) as Hn2.
    { simpl Zdigits2. rewrite Hd2'. unfold fexp, emin, prec, emax. lia. }
    rewrite Hn2 in *. rewrite Hr2' by lia. simpl shr_m.
    rewrite Z.max_id, Z.add_0_r.
    assert ((e + n1 <=? emax - prec) = true) as ->.
    { apply Z.leb_le. unfold emax, prec. lia. }
    exists p2, n1. split_and!; [done|lia|lia|lia|lia|nia|nia|].
    intros Hl Hd53. specialize (Hexact Hl Hd53). split; [congruence|lia].
  - assert (m2 = 2 ^ 53) as Hm2eq by lia.
    assert (m1 = 2 ^ 53 - 1) as Hm1eq by lia.
    rewrite Hm2eq in *.
    assert (fexp prec emax (Zdigits2 (2 ^ 53) + (e + n1)) - (e + n1) = 1) as Hn2.
    { change (Zdigits2 (2 ^ 53)) with 54. unfold fexp, emin, prec, emax. lia. }
    rewrite Hn2 in *. change (Z.max 1 0) with 1 in *.
    change (2 ^ 53 / 2 ^ 1) with (Z.pos (4503599627370496)) in Hr2. rewrite Hr2.
    assert ((e + n1 + 1 <=? emax - prec) = true) as ->.
    { apply Z.leb_le. unfold emax, prec. lia. }
    exists 4503599627370496%positive, (n1 + 1).
    rewrite Z.pow_add_r, Z.pow_1_r by lia.
    split_and!; [f_equal; lia|done|done|lia|lia|nia|nia|].
    intros Hl Hd53. specialize (Hexact Hl Hd53). lia.
Qed.

Lemma pow2_pos (e : Z) : (0 < 2 ^ e)%Q.
Proof. by apply Qpower_0_lt. Qed.

Lemma pow2_add (a b : Z) : (2 ^ (a + b) == 2 ^ a * 2 ^ b)%Q.
Proof. by apply Qpower_plus. Qed.

Lemma pow2_nonneg (k : Z) : 0 ≤ k → (2 ^ k == inject_Z (2 ^ k))%Q.
Proof. intros Hk. by rewrite Zpower_Qpower. Qed.

(** The same over the rationals: when the number rounded is [x * 2^e] with
    [m <= x < m + 1], it lies within the rounding of the result. *)
Lemma binary_round_aux_rel s (m : positive) e l (x : Q) :
  let d := Z.pos (digits2_pos m) in
  53 ≤ d → -1074 ≤ d + e - 53 → d + e ≤ 1023 →
  (inject_Z (Z.pos m) <= x < inject_Z (Z.pos m) + 1)%Q →
  ∃ (m3 : positive) (e3 : Z),
    binary_round_aux prec emax s (Z.pos m) e l = S754_finite s m3 e3 ∧
    2 ^ 52 ≤ Z.pos m3 < 2 ^ 53 ∧ e + d - 53 ≤ e3 ≤ e + d - 52 ∧
    within_rounding (inject_Z (Z.pos m3) * 2 ^ e3) (x * 2 ^ e) ∧
    (l = loc_Exact → d = 53 → m3 = m ∧ e3 = e).
Proof.
  intros d Hd Hlo Hhi [Hxl Hxu].
  destruct (binary_round_aux_normal s m e l Hd Hlo Hhi)
    as (m3 & k & Hr & Hm3 & Hk & [Hl Hu] & Hexact).
  fold d in Hk, Hexact.
  exists m3, (e + k). split_and!; [done|lia|lia|lia|lia| |].
  - assert (0 ≤ k) as Hk0 by lia.
    set (P := 2 ^ k) in *. set (A := Z.pos m3 * P).
    assert (0 < P) as HP by (apply Z.pow_pos_nonneg; lia).
    assert (A ≤ Z.pos m + P) as H1 by (unfold A; lia).
    assert (Z.pos m + 1 ≤ A + P) as H2 by (unfold A; lia).
    assert (4503599627370496 * P ≤ A) as H3 by (unfold A; nia).
    rewrite Zle_Qle in H1, H2, H3.
    rewrite inject_Z_plus in H1. rewrite !inject_Z_plus in H2.
    rewrite inject_Z_mult in H3.
    assert (inject_Z (Z.pos m3) * 2 ^ (e + k) == inject_Z A * 2 ^ e)%Q as Hv.
    { rewrite Z.add_comm, pow2_add, pow2_nonneg by done.
      unfold A. rewrite inject_Z_mult. fold P. ring. }
    unfold within_rounding. rewrite Hv.
    pose proof (pow2_pos e) as HT.
    set (a := inject_Z A) in *. set (p := inject_Z P) in *.
    set (T := (2 ^ e)%Q) in *.
    change (inject_Z 4503599627370496) with (4503599627370496 # 1) in H3.
    change (inject_Z 1) with 1%Q in H2.
    assert (a * (1 - (1 # 4503599627370496)) <= x <= a * (1 + (1 # 4503599627370496)))%Q
      as [Ha Hb] by (split; lra).
    split.
    + assert (a * T * (1 - (1 # 4503599627370496))
              == a * (1 - (1 # 4503599627370496)) * T)%Q as -> by ring.
      apply Qmult_le_compat_r; [done|]. by apply Qlt_le_weak.
    + assert (a * T * (1 + (1 # 4503599627370496))
              == a * (1 + (1 # 4503599627370496)) * T)%Q as -> by ring.
      apply Qmult_le_compat_r; [done|]. by apply Qlt_le_weak.
  - intros ??. destruct Hexact as [-> ->]; [done..|]. split; [done|lia].
Qed.

Lemma pos_iter_xO (m k : positive) :
  Z.pos (Pos.iter xO m k) = Z.pos m * 2 ^ Z.pos k.
Proof.
  induction k as [|k IH] using Pos.peano_ind.
  - simpl. lia.
  - rewrite Pos.iter_succ, Pos2Z.inj_xO, IH, Pos2Z.inj_succ, Z.pow_succ_r by lia.
    lia.
Qed.

Lemma shl_align_spec (mx : positive) (ex ex' : Z) :
  ex' ≤ ex →
  ∃ mz, shl_align mx ex ex' = (mz, ex') ∧ Z.pos mz = Z.pos mx * 2 ^ (ex - ex').
Proof.
  intros He. unfold shl_align. destruct (ex' - ex) as [|k|k] eqn:Hk; [|lia|].
  - assert (ex' = ex) as -> by lia. exists mx. rewrite Z.sub_diag. split; [done|lia].
  - eexists. split; [done|]. rewrite pos_iter_xO. do 2 f_equal. lia.
Qed.

(** [float(n)] is exact for [0 < n < 2^53]. *)
Lemma of_int_normal (n : Z) :
  0 < n < 2 ^ 53 →
  ∃ (m : positive) (e : Z),
    of_int binary64 n = S754_finite false m e ∧
    2 ^ 52 ≤ Z.pos m < 2 ^ 53 ∧ -52 ≤ e ≤ 0 ∧
    (inject_Z (Z.pos m) * 2 ^ e == inject_Z n)%Q.
Proof.
  intros [Hn0 Hn]. destruct n as [|p|p]; [lia| |lia].
  pose proof (digits2_pos_bounds p) as [Hl Hu].
  set (d := Z.pos (digits2_pos p)) in *.
  assert (1 ≤ d ≤ 53) as Hd.
  { split; [unfold d; lia|]. destruct (decide (d ≤ 53)); [done|].
    assert (2 ^ 53 ≤ 2 ^ (d - 1)) by (apply Z.pow_le_mono_r; lia). lia. }
  simpl of_int. unfold binary_round. fold d.
  assert (fexp prec emax (d + 0) = d - 53) as ->.
  { unfold fexp, emin, prec, emax. lia. }
  destruct (shl_align_spec p 0 (d - 53)) as (mz & -> & Hmz); [lia|].
  replace (0 - (d - 53)) with (53 - d) in Hmz by lia.
  assert (2 ^ 52 ≤ Z.pos mz < 2 ^ 53) as Hmz'.
  { rewrite Hmz.
    assert (2 ^ 52 = 2 ^ (d - 1) * 2 ^ (53 - d)) as ->
      by (rewrite <- Z.pow_add_r by lia; f_equal; lia).
    assert (2 ^ 53 = 2 ^ d * 2 ^ (53 - d)) as ->
      by (rewrite <- Z.pow_add_r by lia; f_equal; lia).
    assert (0 < 2 ^ (53 - d)) by (apply Z.pow_pos_nonneg; lia). nia. }
  assert (Z.pos (digits2_pos mz) = 53) as Hdz by by apply digits2_pos_unique.
  destruct (binary_round_aux_rel false mz (d - 53) loc_Exact (inject_Z (Z.pos mz)))
    as (m3 & e3 & -> & _ & _ & _ & Hexact); rewrite ?Hdz; try lia.
  { split; lra. }
  destruct Hexact as [-> ->]; [done..|].
  exists mz, (d - 53). split_and!; [done|lia|lia|lia|lia|].
  rewrite Hmz, inject_Z_mult, <- pow2_nonneg by lia.
  rewrite <- Qmult_assoc, <- pow2_add.
  replace (53 - d + (d - 53)) with 0 by lia. simpl. ring.
Qed.

Lemma within_rounding_eq v x x' :
  (x == x')%Q → within_rounding v x → within_rounding v x'.
Proof. unfold within_rounding. by intros ->. Qed.

(** Division and multiplication round once. *)
Lemma SFdiv_normal (mx my : positive) (ex ey : Z) :
  2 ^ 52 ≤ Z.pos mx < 2 ^ 53 → 2 ^ 52 ≤ Z.pos my < 2 ^ 53 →
  -400 ≤ ex ≤ 400 → -400 ≤ ey ≤ 400 →
  ∃ (m3 : positive) (e3 : Z),
    SFdiv prec emax (S754_finite false mx ex) (S754_finite false my ey)
      = S754_finite false m3 e3 ∧
    2 ^ 52 ≤ Z.pos m3 < 2 ^ 53 ∧ ex - ey - 53 ≤ e3 ≤ ex - ey - 51 ∧
    within_rounding (inject_Z (Z.pos m3) * 2 ^ e3)
      ((inject_Z (Z.pos mx) * 2 ^ ex) / (inject_Z (Z.pos my) * 2 ^ ey)).
Proof.
  intros Hmx Hmy Hex Hey.
  assert (Z.pos (digits2_pos mx) = 53) as Hdx by (apply digits2_pos_unique; done).
  assert (Z.pos (digits2_pos my) = 53) as Hdy by (apply digits2_pos_unique; done).
  unfold SFdiv, SFdiv_core_binary. simpl Zdigits2. rewrite Hdx, Hdy.
  assert (Z.min (fexp prec emax (53 + ex - (53 + ey))) (ex - ey) = ex - ey - 53) as ->.
  { unfold fexp, emin, prec, emax. lia. }
  replace (ex - ey - (ex - ey - 53)) with 53 by lia.
  rewrite Z.shiftl_mul_pow2 by lia.
  set (m' := Z.pos mx * 2 ^ 53).
  pose proof (Z_div_mod m' (Z.pos my) eq_refl) as Hdiv.
  destruct (Z.div_eucl m' (Z.pos my)) as [q r]. destruct Hdiv as [Hq Hr].
  assert (2 ^ 52 ≤ q < 2 ^ 54) as Hqb by (unfold m' in Hq; nia).
  destruct q as [|pq|pq]; [lia| |lia].
  pose proof (digits2_pos_bounds pq) as [Hl Hu].
  set (d := Z.pos (digits2_pos pq)) in *.
  assert (53 ≤ d ≤ 54) as Hd.
  { split.
    - destruct (decide (53 ≤ d)); [done|].
      assert (2 ^ d ≤ 2 ^ 52) by (apply Z.pow_le_mono_r; lia). lia.
    - destruct (decide (d ≤ 54)); [done|].
      assert (2 ^ 54 ≤ 2 ^ (d - 1)) by (apply Z.pow_le_mono_r; lia). lia. }
  set (x := (inject_Z m' / inject_Z (Z.pos my))%Q).
  assert (0 < inject_Z (Z.pos my))%Q as Hypos by done.
  simpl xorb.
  destruct (binary_round_aux_rel false pq (ex - ey - 53) (new_location (Z.pos my) r) x)
    as (m3 & e3 & -> & Hm3 & He3 & Hrel & _); fold d; try lia.
  { unfold x. split.
    - apply Qle_shift_div_l; [done|].
      rewrite <- inject_Z_mult. rewrite <- Zle_Qle. lia.
    - apply Qlt_shift_div_r; [done|].
      change 1%Q with (inject_Z 1). rewrite <- inject_Z_plus, <- inject_Z_mult.
      rewrite <- Zlt_Qlt. lia. }
  exists m3, e3. split_and!; [done|lia|lia|lia|lia|].
  eapply within_rounding_eq; [|done].
  unfold x, m'. rewrite inject_Z_mult, <- pow2_nonneg by lia.
  replace ex with ((ex - ey - 53) + 53 + ey) at 2 by lia.
  rewrite !pow2_add.
  pose proof (pow2_pos ey). field. split; lra.
Qed.

Lemma SFmul_normal (mx my : positive) (ex ey : Z) :
  2 ^ 52 ≤ Z.pos mx < 2 ^ 53 → 2 ^ 52 ≤ Z.pos my < 2 ^ 53 →
  -400 ≤ ex ≤ 400 → -400 ≤ ey ≤ 400 →
  ∃ (m3 : positive) (e3 : Z),
    SFmul prec emax (S754_finite false mx ex) (S754_finite false my ey)
      = S754_finite false m3 e3 ∧
    2 ^ 52 ≤ Z.pos m3 < 2 ^ 53 ∧ ex + ey + 52 ≤ e3 ≤ ex + ey + 54 ∧
    within_rounding (inject_Z (Z.pos m3) * 2 ^ e3)
      ((inject_Z (Z.pos mx) * 2 ^ ex) * (inject_Z (Z.pos my) * 2 ^ ey)).
Proof.
  intros Hmx Hmy Hex Hey. unfold SFmul. simpl xorb.
  assert (2 ^ 104 ≤ Z.pos (mx * my) < 2 ^ 106) as Hm by (rewrite Pos2Z.inj_mul; nia).
  pose proof (digits2_pos_bounds (mx * my)) as [Hl Hu].
  set (d := Z.pos (digits2_pos (mx * my))) in *.
  assert (105 ≤ d ≤ 106) as Hd.
  { split.
    - destruct (decide (105 ≤ d)); [done|].
      assert (2 ^ d ≤ 2 ^ 104) by (apply Z.pow_le_mono_r; lia). lia.
    - destruct (decide (d ≤ 106)); [done|].
      assert (2 ^ 106 ≤ 2 ^ (d - 1)) by (apply Z.pow_le_mono_r; lia). lia. }
  destruct (binary_round_aux_rel false (mx * my) (ex + ey) loc_Exact
              (inject_Z (Z.pos (mx * my))))
    as (m3 & e3 & -> & Hm3 & He3 & Hrel & _); fold d; try lia.
  { split; lra. }
  exists m3, e3. split_and!; [done|lia|lia|lia|lia|].
  eapply within_rounding_eq; [|done].
  rewrite Pos2Z.inj_mul, inject_Z_mult, pow2_add. ring.
Qed.

(** [n_correct / n_questions * 100] in binary64 against the rational
    number [100 * n_correct / n_questions]. *)
Lemma percent_within_tolerance (n_correct n_questions : Z) :
  0 ≤ n_correct ≤ n_questions → 0 < n_questions < 2 ^ 53 →
  ∃ v : Q,
    float_value
      (fmul binary64
         (fdiv binary64 (of_int binary64 n_correct) (of_int binary64 n_questions))
         (of_int binary64 100)) = Some v ∧
    (Qabs (v - 100 * inject_Z n_correct / inject_Z n_questions)
     <= 1 # 1000000000)%Q.
Proof.
  intros Hc Hq.
  destruct (of_int_normal n_questions Hq) as (mq & eq & Hnq & Hmq & Heq & Hvq).
  assert (0 < inject_Z n_questions)%Q as Hqpos.
  { change 0%Q with (inject_Z 0). rewrite <- Zlt_Qlt. lia. }
  destruct (decide (n_correct = 0)) as [->|Hc0].
  - exists 0%Q. rewrite Hnq. split; [done|].
    apply Qabs_Qle_condition.
    assert (0 - 100 * inject_Z 0 / inject_Z n_questions == 0)%Q as ->.
    { unfold Qdiv. change (inject_Z 0) with 0%Q. ring. }
    split; done.
  - destruct (of_int_normal n_correct) as (mc & ec & Hnc & Hmc & Hec & Hvc); [lia|].
    rewrite Hnc, Hnq. change (fdiv binary64) with (SFdiv prec emax).
    destruct (SFdiv_normal mc mq ec eq) as (m3 & e3 & -> & Hm3 & He3 & Hr1);
      [lia..|].
    change (of_int binary64 100) with (S754_finite false 7036874417766400 (-46)).
    change (fmul binary64) with (SFmul prec emax).
    destruct (SFmul_normal m3 7036874417766400 e3 (-46))
      as (m5 & e5 & -> & Hm5 & He5 & Hr2); [lia..|].
    eexists. split; [done|].
    set (v1 := (inject_Z (Z.pos m3) * 2 ^ e3)%Q) in *.
    set (v2 := (inject_Z (Z.pos m5) * 2 ^ e5)%Q) in *.
    set (x1 := (inject_Z n_correct / inject_Z n_questions)%Q).
    eapply (within_rounding_eq _ _ x1) in Hr1; [|by rewrite Hvc, Hvq].
    eapply (within_rounding_eq _ _ (v1 * 100)%Q) in Hr2.
    2:{ assert (inject_Z 7036874417766400 * 2 ^ (-46) == 100)%Q as -> by done.
        done. }
    assert (0 <= x1 <= 1)%Q as Hx1.
    { unfold x1. split.
      - apply Qle_shift_div_l; [done|]. rewrite Qmult_0_l.
        change 0%Q with (inject_Z 0). rewrite <- Zle_Qle. lia.
      - apply Qle_shift_div_r; [done|]. rewrite Qmult_1_l.
        rewrite <- Zle_Qle. lia. }
    assert (100 * inject_Z n_correct / inject_Z n_questions == 100 * x1)%Q as ->.
    { unfold x1. field. lra. }
    unfold within_rounding in Hr1, Hr2.
    apply Qabs_Qle_condition. split; lra.
Qed.

(** C1.  On a frame with at least one row the engine returns, and its
    Brier score is the mean over the rows of
    [(confidence_percent / 100 - outcome) ^ 2], the outcome being 1 for a
    correct row and 0 otherwise: in every arithmetic the [mean] of the
    column of these terms, their sum as numpy adds it up divided by their
    number, which over the rationals is the arithmetic mean itself. *)
Theorem brier_score_is_mean (df : list Row.t) :
  df ≠ [] →
  (∀ fl, ∃ grouped accuracy,
     compute_calibration fl df =
       Calibration grouped (mean fl (row_squared_error fl <$> df))
         accuracy (length df)) ∧
  (∃ grouped accuracy,
     compute_calibration exact df =
       Calibration grouped (Some (arithmetic_mean (squared_error <$> df)))
         accuracy (length df)).
Proof.
  intros Hdf. split.
  - intros fl. rewrite (compute_calibration_rows fl df Hdf). by do 2 eexists.
  - rewrite (compute_calibration_rows exact df Hdf), (exact_brier df Hdf).
    by do 2 eexists.
Qed.

Lemma brier_score_is_mean_witness :
  (∀ fl, ∃ grouped accuracy,
     compute_calibration fl demo_rows =
       Calibration grouped (mean fl (row_squared_error fl <$> demo_rows))
         accuracy (length demo_rows)) ∧
  (∃ grouped accuracy,
     compute_calibration exact demo_rows =
       Calibration grouped (Some (arithmetic_mean (squared_error <$> demo_rows)))
         accuracy (length demo_rows)).
Proof. apply brier_score_is_mean. discriminate. Defined.

(** C4.  The buckets partition the frame: their [n_questions] add up to the
    number of rows; each bucket counts the rows of its confidence level and
    has at least one; the confidence levels of the buckets are distinct and
    are exactly the levels that occur in the frame. *)
Theorem buckets_partition fl (df : list Row.t) :
  df ≠ [] →
  ∃ grouped brier accuracy,
    compute_calibration fl df = Calibration grouped brier accuracy (length df) ∧
    sum_Z (Bucket.n_questions <$> grouped) = Z.of_nat (length df) ∧
    (∀ b, b ∈ grouped →
       1 ≤ Bucket.n_questions b ∧
       Bucket.n_questions b =
         Z.of_nat (length (filter (λ r, Row.confidence_percent r
                                        = Bucket.stated_confidence b) df))) ∧
    NoDup (Bucket.stated_confidence <$> grouped) ∧
    (∀ c, c ∈ Bucket.stated_confidence <$> grouped ↔
          c ∈ Row.confidence_percent <$> df).
Proof.
  intros Hdf. rewrite (compute_calibration_rows fl df Hdf).
  do 3 eexists. split; [done|]. split_and!.
  - unfold groupby. rewrite <- !list_fmap_compose.
    rewrite <- (group_sizes Row.confidence_percent
                  (sorted_keys (Row.confidence_percent <$> df)) df).
    + f_equal. apply list_fmap_ext. intros _ k _. simpl. by rewrite length_fmap.
    + apply sorted_keys_NoDup.
    + intros r Hr. apply sorted_keys_elem, list_elem_of_fmap. eauto.
  - intros b (k & (r & Hr & Hk) & ->)%grouped_elem. simpl.
    rewrite length_fmap. split; [|done].
    assert (r ∈ filter (λ r, Row.confidence_percent r = k) df) as Hg
      by by apply list_elem_of_filter.
    destruct (filter _ df); [by apply not_elem_of_nil in Hg|]. simpl. lia.
  - rewrite grouped_levels. apply sorted_keys_NoDup.
  - intros c. rewrite grouped_levels. apply sorted_keys_elem.
Qed.

Lemma buckets_partition_witness :
  ∃ grouped brier accuracy,
    compute_calibration binary64 demo_rows
      = Calibration grouped brier accuracy (length demo_rows) ∧
    sum_Z (Bucket.n_questions <$> grouped) = Z.of_nat (length demo_rows) ∧
    (∀ b, b ∈ grouped →
       1 ≤ Bucket.n_questions b ∧
       Bucket.n_questions b =
         Z.of_nat (length (filter (λ r, Row.confidence_percent r
                                        = Bucket.stated_confidence b) demo_rows))) ∧
    NoDup (Bucket.stated_confidence <$> grouped) ∧
    (∀ c, c ∈ Bucket.stated_confidence <$> grouped ↔
          c ∈ Row.confidence_percent <$> demo_rows).
Proof. apply buckets_partition. discriminate. Defined.

(** C5, as the claim states it, fails: the two frames are permutations of
    each other, and in binary64 their Brier scores differ, the sum of the
    squared errors being rounded as it goes along the rows. *)
Lemma brier_depends_on_row_order :
  low_first ≡ₚ high_first ∧
  compute_calibration binary64 low_first
  ≠ compute_calibration binary64 high_first.
Proof.
  split.
  - unfold low_first, high_first.
    etrans; [|apply Permutation_swap]. apply Permutation_skip.
    apply Permutation_swap.
  - intros Heq. vm_compute in Heq. discriminate Heq.
Qed.

(** C5 (amended).  On a frame and on any permutation of it the engine
    gives, in every arithmetic, the same buckets in the same order, the same
    accuracy and the same number of rows; over the rationals it gives the
    same Brier score too, so that the Brier scores of the two frames differ
    by the rounding of their sums at most.  The result is a function of the
    frame alone. *)
Theorem compute_calibration_perm (df df' : list Row.t) :
  df ≠ [] → df ≡ₚ df' →
  (∀ fl, ∃ grouped brier brier' accuracy,
     compute_calibration fl df = Calibration grouped brier accuracy (length df) ∧
     compute_calibration fl df' = Calibration grouped brier' accuracy (length df)) ∧
  compute_calibration exact df = compute_calibration exact df'.
Proof.
  intros Hdf Hp.
  assert (df' ≠ []) as Hdf'.
  { intros ->. by apply Permutation_nil_r in Hp. }
  assert (∀ fl, mean_bool fl (Row.is_correct <$> df)
                = mean_bool fl (Row.is_correct <$> df')) as Hacc.
  { intros fl.
    assert (Row.is_correct <$> df ≡ₚ Row.is_correct <$> df') as Hc by by rewrite Hp.
    unfold mean_bool. rewrite (sum_bool_perm _ _ Hc), (Permutation_length Hc).
    destruct df, df'; done. }
  split.
  - intros fl.
    rewrite (compute_calibration_rows fl df Hdf),
      (compute_calibration_rows fl df' Hdf').
    rewrite <- (grouped_perm fl df df' Hp), <- Hacc, <- (Permutation_length Hp).
    by do 4 eexists.
  - rewrite (compute_calibration_rows exact df Hdf),
      (compute_calibration_rows exact df' Hdf').
    rewrite (exact_brier df Hdf), (exact_brier df' Hdf').
    assert (squared_error <$> df ≡ₚ squared_error <$> df') as Hs by by rewrite Hp.
    unfold arithmetic_mean.
    rewrite (grouped_perm exact df df' Hp), (sum_Qc_perm _ _ Hs), Hacc.
    by rewrite !length_fmap, (Permutation_length Hp).
Qed.

Lemma compute_calibration_perm_witness :
  (∀ fl, ∃ grouped brier brier' accuracy,
     compute_calibration fl low_first
       = Calibration grouped brier accuracy (length low_first) ∧
     compute_calibration fl high_first
       = Calibration grouped brier' accuracy (length low_first)) ∧
  compute_calibration exact low_first = compute_calibration exact high_first.
Proof.
  apply compute_calibration_perm; [discriminate|].
  unfold low_first, high_first.
  etrans; [|apply Permutation_swap]. apply Permutation_skip.
  apply Permutation_swap.
Defined.

(** C9.  The buckets come out in strictly ascending order of
    [stated_confidence], in whatever order the levels occur in the frame. *)
Theorem buckets_ascending fl (df : list Row.t) :
  df ≠ [] →
  ∃ grouped brier accuracy,
    compute_calibration fl df = Calibration grouped brier accuracy (length df) ∧
    StronglySorted Z.lt (Bucket.stated_confidence <$> grouped).
Proof.
  intros Hdf. rewrite (compute_calibration_rows fl df Hdf).
  do 3 eexists. split; [done|].
  rewrite grouped_levels. apply sorted_keys_sorted.
Qed.

Lemma buckets_ascending_witness :
  ∃ grouped brier accuracy,
    compute_calibration binary64 demo_rows
      = Calibration grouped brier accuracy (length demo_rows) ∧
    StronglySorted Z.lt (Bucket.stated_confidence <$> grouped).
Proof. apply buckets_ascending. discriminate. Defined.

(** The correct rows of a column of outcomes, counted. *)
Lemma sum_bool_count (l : list Row.t) :
  sum_bool (Row.is_correct <$> l)
  = Z.of_nat (length (filter (λ r, Row.is_correct r = true) l)).
Proof.
  induction l as [|r l IH]; [done|].
  rewrite fmap_cons. cbn [sum_bool foldr]. fold (sum_bool (Row.is_correct <$> l)).
  rewrite IH. destruct (Row.is_correct r) eqn:Hr.
  - rewrite filter_cons_True by done. simpl. lia.
  - rewrite filter_cons_False by congruence. simpl. lia.
Qed.

(** C3.  Every bucket that the engine makes counts rows of the frame:
    [n_questions] is the number of rows at the bucket's confidence level,
    at least one, and [n_correct] the number of correct rows among them, so
    that [n_correct] lies between 0 and [n_questions].  Over the rationals
    [percent_correct] is [100 * n_correct / n_questions]; in binary64, for a
    frame of fewer than [2 ^ 53] rows, it is a finite float within [1e-9]
    of that number. *)
Theorem bucket_counts_and_percent (df : list Row.t) :
  df ≠ [] →
  (∃ grouped brier accuracy,
     compute_calibration exact df = Calibration grouped brier accuracy (length df) ∧
     ∀ b, b ∈ grouped →
       1 ≤ Bucket.n_questions b ∧
       Bucket.n_questions b =
         Z.of_nat (length (filter (λ r, Row.confidence_percent r
                                        = Bucket.stated_confidence b) df)) ∧
       Bucket.n_correct b =
         Z.of_nat (length (filter (λ r, Row.is_correct r = true
                                        ∧ Row.confidence_percent r
                                          = Bucket.stated_confidence b) df)) ∧
       0 ≤ Bucket.n_correct b ≤ Bucket.n_questions b ∧
       Bucket.percent_correct b =
         Some (Z2Qc 100 * Z2Qc (Bucket.n_correct b)
               / Z2Qc (Bucket.n_questions b))%Qc) ∧
  (Z.of_nat (length df) < 2 ^ 53 →
   ∃ grouped brier accuracy,
     compute_calibration binary64 df
       = Calibration grouped brier accuracy (length df) ∧
     ∀ b, b ∈ grouped →
       1 ≤ Bucket.n_questions b ∧
       Bucket.n_questions b =
         Z.of_nat (length (filter (λ r, Row.confidence_percent r
                                        = Bucket.stated_confidence b) df)) ∧
       Bucket.n_correct b =
         Z.of_nat (length (filter (λ r, Row.is_correct r = true
                                        ∧ Row.confidence_percent r
                                          = Bucket.stated_confidence b) df)) ∧
       0 ≤ Bucket.n_correct b ≤ Bucket.n_questions b ∧
       ∃ v : Q,
         float_value (Bucket.percent_correct b) = Some v ∧
         (Qabs (v - 100 * inject_Z (Bucket.n_correct b)
                    / inject_Z (Bucket.n_questions b))
          <= 1 # 1000000000)%Q).
Proof.
  intros Hdf.
  assert (∀ fl b,
            b ∈ bucket_of_group fl <$> groupby Row.confidence_percent df →
            (1 ≤ Bucket.n_questions b ∧
             Bucket.n_questions b =
               Z.of_nat (length (filter (λ r, Row.confidence_percent r
                                              = Bucket.stated_confidence b) df)) ∧
             Bucket.n_correct b =
               Z.of_nat (length (filter (λ r, Row.is_correct r = true
                                              ∧ Row.confidence_percent r
                                                = Bucket.stated_confidence b) df)) ∧
             0 ≤ Bucket.n_correct b ≤ Bucket.n_questions b) ∧
            Bucket.n_questions b ≤ Z.of_nat (length df) ∧
            Bucket.percent_correct b =
              fmul fl (fdiv fl (of_int fl (Bucket.n_correct b))
                         (of_int fl (Bucket.n_questions b))) (of_int fl 100))
    as Hbucket.
  { intros fl b (k & (r & Hr & Hk) & ->)%grouped_elem. simpl.
    rewrite length_fmap. split_and!; [| | | | | |done].
    - assert (r ∈ filter (λ r, Row.confidence_percent r = k) df) as Hg
        by by apply list_elem_of_filter.
      destruct (filter _ df); [by apply not_elem_of_nil in Hg|]. simpl. lia.
    - done.
    - by rewrite sum_bool_count, list_filter_filter.
    - apply sum_bool_bounds.
    - rewrite <- (length_fmap Row.is_correct). apply sum_bool_bounds.
    - apply inj_le, length_filter. }
  split.
  - rewrite (compute_calibration_rows exact df Hdf).
    do 3 eexists. split; [done|]. intros b Hb.
    destruct (Hbucket exact b Hb) as ((Hq & Hnq & Hnc & Hc) & _ & Hp).
    do 4 (split; [done|]). etrans; [exact Hp|]. apply exact_percent.
    intros Hz. assert (1 ≤ 0) as Habs; [|lia].
    etrans; [exact Hq|]. by apply Z.eq_le_incl.
  - intros Hlen. rewrite (compute_calibration_rows binary64 df Hdf).
    do 3 eexists. split; [done|]. intros b Hb.
    destruct (Hbucket binary64 b Hb) as ((Hq & Hnq & Hnc & Hc) & Hle & Hp).
    do 4 (split; [done|]).
    destruct (percent_within_tolerance (Bucket.n_correct b) (Bucket.n_questions b))
      as (v & Hv & Htol); [done|split|].
    { eapply Z.lt_le_trans; [|exact Hq]. done. }
    { eapply Z.le_lt_trans; [exact Hle|done]. }
    exists v. split; [|done]. etrans; [|exact Hv]. f_equal. exact Hp.
Qed.

Lemma bucket_counts_and_percent_witness :
  ∃ grouped brier accuracy,
    compute_calibration binary64 demo_rows
      = Calibration grouped brier accuracy (length demo_rows) ∧
    ∀ b, b ∈ grouped →
      1 ≤ Bucket.n_questions b ∧
      Bucket.n_questions b =
        Z.of_nat (length (filter (λ r, Row.confidence_percent r
                                       = Bucket.stated_confidence b) demo_rows)) ∧
      Bucket.n_correct b =
        Z.of_nat (length (filter (λ r, Row.is_correct r = true
                                       ∧ Row.confidence_percent r
                                         = Bucket.stated_confidence b) demo_rows)) ∧
      0 ≤ Bucket.n_correct b ≤ Bucket.n_questions b ∧
      ∃ v : Q,
        float_value (Bucket.percent_correct b) = Some v ∧
        (Qabs (v - 100 * inject_Z (Bucket.n_correct b)
                   / inject_Z (Bucket.n_questions b))
         <= 1 # 1000000000)%Q.
Proof.
  apply (proj2 (bucket_counts_and_percent demo_rows ltac:(discriminate))).
  vm_compute. reflexivity.
Defined.

(** *** The scenarios of the specification *)

Ltac exact_eq :=
  vm_compute; repeat first [apply Qc_decomp; reflexivity | f_equal].

(** One question, answered correctly at 75%: accuracy 1, one bucket at 100
    percent, Brier score 0.0625. *)
Example scenario_A :
  let df := [scored_row (Question.mk 1 "R" "P" "tf" "True" "False" 1) "True" 75] in
  compute_calibration exact df
  = Calibration [Bucket.mk 75 1 1 (Some (Z2Qc 100)) 75]
      (Some (Q2Qc (1 # 16))) (Some (Z2Qc 1)) 1 ∧
  compute_calibration binary64 df
  = Calibration [Bucket.mk 75 1 1 (of_int binary64 100) 75]
      (S754_finite false 4503599627370496 (-56)) (of_int binary64 1) 1.
Proof. split; [exact_eq|by vm_compute]. Qed.

(** One question, answered incorrectly at 95%: accuracy 0, one bucket at 0
    percent, Brier score 0.9025, in binary64 the float next below it. *)
Example scenario_B :
  let df := [scored_row (Question.mk 1 "R" "P" "tf" "True" "False" 1) "False" 95] in
  compute_calibration exact df
  = Calibration [Bucket.mk 95 1 0 (Some (Z2Qc 0)) 95]
      (Some (Q2Qc (361 # 400))) (Some (Z2Qc 0)) 1 ∧
  compute_calibration binary64 df
  = Calibration [Bucket.mk 95 1 0 (of_int binary64 0) 95]
      (S754_finite false 8128997327403745 (-53)) (of_int binary64 0) 1.
Proof. split; [exact_eq|by vm_compute]. Qed.

(** Two questions at 65%, one correct and one not: accuracy 0.5, one bucket
    at 50 percent, Brier score (0.1225 + 0.4225) / 2 = 0.2725. *)
Example scenario_C :
  let df :=
    [scored_row (Question.mk 1 "R" "P" "tf" "True" "False" 1) "True" 65;
     scored_row (Question.mk 2 "R" "P" "tf" "True" "False" 1) "False" 65] in
  compute_calibration exact df
  = Calibration [Bucket.mk 65 2 1 (Some (Z2Qc 50)) 65]
      (Some (Q2Qc (109 # 400))) (Some (Q2Qc (1 # 2))) 2.
Proof. exact_eq. Qed.

(** The levels 75, 95, 55, 75 of the frame give the buckets 55, 75, 95. *)
Example demo_buckets :
  compute_calibration exact demo_rows
  = Calibration
      [Bucket.mk 55 1 1 (Some (Z2Qc 100)) 55;
       Bucket.mk 75 2 1 (Some (Z2Qc 50)) 75;
       Bucket.mk 95 1 0 (Some (Z2Qc 0)) 95]
      (Some (Q2Qc (173 # 400))) (Some (Q2Qc (1 # 2))) 4.
Proof. exact_eq. Qed.
(** * Further properties of the script *)

(** ** The collector *)

Lemma answered_iff (ss : gmap string string) q :
  answered ss q ↔
  ∃ a c, ss !! ans_key q = Some a ∧ ss !! conf_key q = Some c ∧
         ¬ blank a ∧ ¬ blank c.
Proof.
  unfold answered, filled. split.
  - destruct (ss !! ans_key q) as [a|], (ss !! conf_key q) as [c|]; try tauto.
    intros [??]. by exists a, c.
  - intros (a & c & -> & -> & ? & ?). done.
Qed.

Lemma collect_row_not_answered (ss : gmap string string) q :
  collect_row ss q = Ok None ↔ ¬ answered ss q.
Proof.
  rewrite collect_row_skip, answered_iff. split.
  - intros [H|[H|[(a & Ha & Hb)|(c & Hc & Hb)]]] (a' & c' & Ha' & Hc' & ? & ?);
      congruence.
  - intros Hn. destruct (ss !! ans_key q) as [a|] eqn:Ha; [|by left].
    destruct (ss !! conf_key q) as [c|] eqn:Hc; [|by right; left].
    destruct (decide (blank a)); [right; right; left; by exists a|].
    destruct (decide (blank c)); [right; right; right; by exists c|].
    destruct Hn. by exists a, c.
Qed.

(** What [int] raises is a [ValueError]. *)
Lemma int_raises_ValueError (s : string) e :
  int s = Raise e → ∃ msg, e = ValueError msg.
Proof.
  unfold int.
  destruct (match rstrip_space (lstrip_space s) with
            | String "+" r => (1, r)
            | String "-" r => (-1, r)
            | _ => (1, rstrip_space (lstrip_space s))
            end) as [sign body].
  destruct (digit_run body) as [run rest].
  destruct (int_digits 0 false run); [|intros [= <-]; eauto].
  case_bool_decide; [intros [= <-]; eauto|].
  destruct rest; [done|intros [= <-]; eauto].
Qed.

(** X1.  The rows that the collector returns are the questions of the bank
    with both fields filled in, one row each, in the order of the bank; so
    there are never more rows than questions. *)
Theorem rows_are_answered_questions (ss : gmap string string) qs rows :
  collect_responses ss qs = Ok rows →
  Row.id <$> rows = Question.id <$> filter (answered ss) qs ∧
  (length rows ≤ length qs)%nat.
Proof.
  intros (os & Hos & ->)%collect_responses_spec.
  assert (Row.id <$> omap id os = Question.id <$> filter (answered ss) qs) as Hids.
  { induction Hos as [|q o qs os Hq Hos IH]; [done|].
    destruct o as [r|]; simpl.
    - pose proof Hq as Hq'.
      apply collect_row_append in Hq as (a & c & n & Ha & Hc & ? & ? & _ & ->).
      rewrite filter_cons_True by (apply answered_iff; by exists a, c).
      rewrite fmap_cons. simpl. by rewrite <- IH.
    - apply collect_row_not_answered in Hq.
      by rewrite filter_cons_False. }
  split; [done|].
  rewrite <- (length_fmap Row.id), Hids, length_fmap. apply length_filter.
Qed.

Lemma rows_are_answered_questions_witness :
  let rows :=
    [ scored_row (Question.mk 1 "Round 1 - Example T/F"
        "The blue whale is the largest animal species on Earth."
        "tf" "True" "False" 1) "True" 75;
      scored_row (Question.mk 2 "Round 1 - Example T/F"
        "Polar bears naturally live in Antarctica." "tf" "True" "False" 2)
        "True" 95 ] in
  Row.id <$> rows
  = Question.id <$> filter (answered demo_session) EXAMPLE_QUESTIONS ∧
  (length rows ≤ length EXAMPLE_QUESTIONS)%nat.
Proof.
  intros rows. apply (rows_are_answered_questions demo_session).
  vm_compute. reflexivity.
Defined.

(** X2.  The collector raises exactly when some question of the bank has
    both fields filled in and a confidence string that [int] does not read
    after its trailing percent signs are dropped; what it raises then is a
    [ValueError]. *)
Theorem collect_raises_iff (ss : gmap string string) qs :
  ((∃ e, collect_responses ss qs = Raise e) ↔
   ∃ q c, q ∈ qs ∧ answered ss q ∧ ss !! conf_key q = Some c ∧ ¬ reads_as_int c) ∧
  (∀ e, collect_responses ss qs = Raise e → ∃ msg, e = ValueError msg).
Proof.
  assert (∀ q e, collect_row ss q = Raise e →
            (∃ c, answered ss q ∧ ss !! conf_key q = Some c ∧ ¬ reads_as_int c) ∧
            ∃ msg, e = ValueError msg) as Hrow.
  { intros q e (a & c & Ha & Hc & Hba & Hbc & Hint)%collect_row_raise. split.
    - exists c. split_and!; [apply answered_iff; by exists a, c|done|].
      intros [n Hn]. congruence.
    - by eapply int_raises_ValueError. }
  assert (∀ acc, (∃ e, collect_loop ss qs acc = Raise e) ↔
            ∃ q c, q ∈ qs ∧ answered ss q ∧ ss !! conf_key q = Some c
                   ∧ ¬ reads_as_int c) as Hloop.
  { induction qs as [|q qs IH]; intros acc.
    - simpl. split; [by intros [e ?]|]. intros (q & c & Hq & _). by apply elem_of_nil in Hq.
    - simpl. destruct (collect_row ss q) as [[r|]|e] eqn:Hq; simpl.
      + rewrite IH. split.
        * intros (q' & c & ? & ?). exists q', c. split; [by right|done].
        * intros (q' & c & [->|?]%elem_of_cons & Ha & Hc & Hn); [|by exists q', c].
          apply collect_row_append in Hq as (a & c' & n & _ & Hc' & _ & _ & Hint & _).
          destruct Hn. exists n. congruence.
      + rewrite IH. split.
        * intros (q' & c & ? & ?). exists q', c. split; [by right|done].
        * intros (q' & c & [->|?]%elem_of_cons & Ha & Hc & Hn); [|by exists q', c].
          by apply collect_row_not_answered in Hq.
      + split; [intros _|by exists e].
        destruct (Hrow q e Hq) as [(c & ? & ? & ?) _].
        exists q, c. split; [by left|done]. }
  split.
  - rewrite collect_responses_loop. apply Hloop.
  - clear Hloop. rewrite collect_responses_loop. generalize (@nil Row.t).
    induction qs as [|q qs IH]; intros acc e; simpl; [done|].
    destruct (collect_row ss q) as [[r|]|e'] eqn:Hq; simpl; [apply IH..|].
    intros [= <-]. by destruct (Hrow q e' Hq).
Qed.

Lemma collect_raises_iff_witness :
  let ss : gmap string string :=
    <["ans_2" := "False"]> (<["conf_2" := "about 90"]> ∅) in
  ∃ e, collect_responses ss EXAMPLE_QUESTIONS = Raise e.
Proof.
  intros ss. apply (proj1 (collect_raises_iff ss EXAMPLE_QUESTIONS)).
  exists (Question.mk 2 "Round 1 - Example T/F"
            "Polar bears naturally live in Antarctica." "tf" "True" "False" 2),
    "about 90".
  split_and!.
  - apply list_elem_of_further, list_elem_of_here.
  - apply answered_iff. exists "False", "about 90".
    split_and!; [by vm_compute|by vm_compute| |]; intros [?|?]; discriminate.
  - by vm_compute.
  - intros [n Hn]. vm_compute in Hn. discriminate Hn.
Defined.

(** ** The keys of the session *)

Lemma ans_key_inj q q' : ans_key q = ans_key q' → Question.id q = Question.id q'.
Proof.
  unfold ans_key. intros H. simpl in H. injection H as H. by apply (inj pretty).
Qed.

Lemma conf_key_inj q q' : conf_key q = conf_key q' → Question.id q = Question.id q'.
Proof.
  unfold conf_key. intros H. simpl in H. injection H as H. by apply (inj pretty).
Qed.

Lemma ans_conf_key_ne q q' : ans_key q ≠ conf_key q'.
Proof. unfold ans_key, conf_key. simpl. discriminate. Qed.

Lemma collect_row_lookups (ss ss' : gmap string string) q :
  ss !! ans_key q = ss' !! ans_key q →
  ss !! conf_key q = ss' !! conf_key q →
  collect_row ss q = collect_row ss' q.
Proof. unfold collect_row. by intros -> ->. Qed.

(** X3.  The collector reads the session under the keys of the bank only:
    on two sessions that agree under the answer key and the confidence key
    of every question of the bank it gives the same result, rows or
    exception. *)
Theorem collect_reads_bank_keys (ss ss' : gmap string string) qs :
  (∀ q, q ∈ qs → ss !! ans_key q = ss' !! ans_key q ∧
                 ss !! conf_key q = ss' !! conf_key q) →
  collect_responses ss qs = collect_responses ss' qs.
Proof.
  intros Hkeys. rewrite !collect_responses_loop. generalize (@nil Row.t).
  induction qs as [|q qs IH]; intros acc; [done|]. simpl.
  destruct (Hkeys q) as [Ha Hc]; [by left|].
  rewrite (collect_row_lookups ss ss' q Ha Hc).
  destruct (collect_row ss' q) as [[r|]|e]; simpl; [apply IH..|done];
    intros q' Hq'; apply Hkeys; by right.
Qed.

Lemma collect_reads_bank_keys_witness :
  collect_responses (<["score_button" := "clicked"]> demo_session) EXAMPLE_QUESTIONS
  = collect_responses demo_session EXAMPLE_QUESTIONS.
Proof.
  apply collect_reads_bank_keys. intros q Hq.
  unfold EXAMPLE_QUESTIONS in Hq. rewrite !elem_of_cons in Hq.
  destruct Hq as [->|[->|[->|[->|Hq]]]]; [..|by apply not_elem_of_nil in Hq];
    split; by vm_compute.
Defined.

(** X4.  Storing an answer and a confidence for one question leaves the
    outcome of every question with another id as it was. *)
Theorem answer_other_question (ss : gmap string string) q q' a c :
  Question.id q ≠ Question.id q' →
  collect_row (<[ans_key q' := a]> (<[conf_key q' := c]> ss)) q = collect_row ss q.
Proof.
  intros Hid. apply collect_row_lookups.
  - rewrite !lookup_insert_ne; [done|apply not_eq_sym, ans_conf_key_ne|].
    intros Heq. by apply ans_key_inj in Heq.
  - rewrite !lookup_insert_ne; [done| |apply ans_conf_key_ne].
    intros Heq. by apply conf_key_inj in Heq.
Qed.

Lemma answer_other_question_witness :
  let q1 := Question.mk 1 "Round 1 - Example T/F"
              "The blue whale is the largest animal species on Earth."
              "tf" "True" "False" 1 in
  let q4 := Question.mk 4 "Round 3 - Example population"
              "Which country had more people in 2019?"
              "either" "Brazil" "Norway" 1 in
  collect_row (<[ans_key q4 := "Brazil"]> (<[conf_key q4 := "85%"]> demo_session)) q1
  = collect_row demo_session q1.
Proof. intros q1 q4. apply answer_other_question. discriminate. Defined.

(** X5.  Two questions with the same id share their input: both are
    skipped or neither is, both raise the same exception or neither does,
    and their rows carry the same selected answer and the same
    confidence. *)
Theorem same_id_same_input (ss : gmap string string) q q' :
  Question.id q = Question.id q' →
  (collect_row ss q = Ok None ↔ collect_row ss q' = Ok None) ∧
  (∀ e, collect_row ss q = Raise e ↔ collect_row ss q' = Raise e) ∧
  (∀ r r', collect_row ss q = Ok (Some r) → collect_row ss q' = Ok (Some r') →
     Row.selected_answer r = Row.selected_answer r' ∧
     Row.confidence_percent r = Row.confidence_percent r').
Proof.
  intros Hid. destruct (keys_of_id q q' Hid) as [Ha Hc]. split_and!.
  - by rewrite !collect_row_skip, Ha, Hc.
  - intros e. unfold collect_row. rewrite Ha, Hc.
    destruct (_ || _ || _ || _); [done|].
    destruct (ss !! ans_key q'), (ss !! conf_key q'); try done.
    simpl. by destruct (int _).
  - intros r r' (a & c & n & Hsa & Hsc & _ & _ & Hn & ->)%collect_row_append
      (a' & c' & n' & Hsa' & Hsc' & _ & _ & Hn' & ->)%collect_row_append.
    simpl. rewrite Ha in Hsa. rewrite Hc in Hsc. split; congruence.
Qed.

Lemma same_id_same_input_witness :
  let q := Question.mk 1 "Round 1 - Example T/F"
             "The blue whale is the largest animal species on Earth."
             "tf" "True" "False" 1 in
  let q' := Question.mk 1 "Round 2 - Example history" "Who was born first?"
              "either" "Leonardo da Vinci" "Albert Einstein" 1 in
  (collect_row demo_session q = Ok None ↔ collect_row demo_session q' = Ok None) ∧
  (∀ e, collect_row demo_session q = Raise e ↔ collect_row demo_session q' = Raise e) ∧
  (∀ r r', collect_row demo_session q = Ok (Some r) →
     collect_row demo_session q' = Ok (Some r') →
     Row.selected_answer r = Row.selected_answer r' ∧
     Row.confidence_percent r = Row.confidence_percent r').
Proof. intros q q'. apply same_id_same_input. reflexivity. Defined.

(** X6.  Every row of the collector's frame belongs to a question of the
    bank: it carries the id, the round and the prompt of the question, the
    text that the session holds under the answer key of the question, which
    is neither empty nor "?", and as correct answer one of the two options
    of the question; [is_correct] tells whether the two texts are equal. *)
Theorem row_fields (ss : gmap string string) qs rows r :
  collect_responses ss qs = Ok rows → r ∈ rows →
  (Row.is_correct r = true ↔ Row.selected_answer r = Row.correct_answer r) ∧
  ¬ blank (Row.selected_answer r) ∧
  ∃ q, q ∈ qs ∧
    Row.id r = Question.id q ∧ Row.round r = Question.round q ∧
    Row.prompt r = Question.prompt q ∧
    ss !! ans_key q = Some (Row.selected_answer r) ∧
    (Row.correct_answer r = Question.option_1 q ∨
     Row.correct_answer r = Question.option_2 q).
Proof.
  intros Hrows Hr.
  apply (collect_responses_elem _ _ _ _ Hrows) in Hr as (q & Hq & Hrow).
  apply collect_row_append in Hrow as (a & c & n & Ha & _ & Hba & _ & _ & ->).
  simpl. split_and!; [apply bool_decide_eq_true|done|].
  exists q. split_and!; try done.
  unfold correct_option_text. case_bool_decide; auto.
Qed.

Lemma row_fields_witness :
  let r := scored_row (Question.mk 2 "Round 1 - Example T/F"
             "Polar bears naturally live in Antarctica." "tf" "True" "False" 2)
             "True" 95 in
  (Row.is_correct r = true ↔ Row.selected_answer r = Row.correct_answer r) ∧
  ¬ blank (Row.selected_answer r) ∧
  ∃ q, q ∈ EXAMPLE_QUESTIONS ∧
    Row.id r = Question.id q ∧ Row.round r = Question.round q ∧
    Row.prompt r = Question.prompt q ∧
    demo_session !! ans_key q = Some (Row.selected_answer r) ∧
    (Row.correct_answer r = Question.option_1 q ∨
     Row.correct_answer r = Question.option_2 q).
Proof.
  intros r.
  apply (row_fields demo_session EXAMPLE_QUESTIONS
           [scored_row (Question.mk 1 "Round 1 - Example T/F"
              "The blue whale is the largest animal species on Earth."
              "tf" "True" "False" 1) "True" 75; r] r).
  - vm_compute. reflexivity.
  - apply list_elem_of_further, list_elem_of_here.
Defined.

(** X7.  The keys of the session tell the questions apart by their id: two
    answer keys, or two confidence keys, are equal exactly when the ids are,
    and an answer key is never a confidence key. *)
Theorem keys_separate q q' :
  (ans_key q = ans_key q' ↔ Question.id q = Question.id q') ∧
  (conf_key q = conf_key q' ↔ Question.id q = Question.id q') ∧
  ans_key q ≠ conf_key q'.
Proof.
  split_and!.
  - split; [apply ans_key_inj|]. unfold ans_key. by intros ->.
  - split; [apply conf_key_inj|]. unfold conf_key. by intros ->.
  - apply ans_conf_key_ne.
Qed.

(** ** Builtins: the confidence labels *)

Lemma digit_value_pretty_N_char (d : N) :
  (d < 10)%N → digit_value (pretty_N_char d) = Some (Z.of_N d).
Proof.
  intros Hd.
  assert (d = 0 ∨ d = 1 ∨ d = 2 ∨ d = 3 ∨ d = 4 ∨ d = 5 ∨ d = 6 ∨ d = 7
          ∨ d = 8 ∨ d = 9)%N as Hcases by lia.
  repeat (destruct Hcases as [->|Hcases]; [done|]). by subst.
Qed.

Lemma all_digits_cons c s :
  all_digits (String c s) = true ↔ is_Some (digit_value c) ∧ all_digits s = true.
Proof. simpl. by rewrite andb_true_iff, bool_decide_eq_true. Qed.

Lemma all_digits_pretty_N_go (x : N) s :
  all_digits s = true → all_digits (pretty_N_go x s) = true.
Proof.
  revert s. induction (N.lt_wf_0 x) as [x _ IH]. intros s Hs.
  destruct (decide (x = 0)%N) as [->|Hx]; [done|].
  rewrite pretty_N_go_step by lia. apply IH.
  - apply N.div_lt; lia.
  - apply all_digits_cons. split; [|done].
    rewrite digit_value_pretty_N_char; [done|]. by apply N.mod_lt.
Qed.

Lemma int_digits_pretty_N_go (x : N) :
  ∃ n, 0 ≤ n ∧ (n = 0 ↔ x = 0%N) ∧ ∀ acc b s,
    int_digits acc b (pretty_N_go x s)
    = int_digits (acc * 10 ^ n + Z.of_N x) (b || bool_decide (0 < n)) s.
Proof.
  induction (N.lt_wf_0 x) as [x _ IH].
  destruct (decide (x = 0)%N) as [->|Hx].
  - exists 0. split_and!; [done..|]. intros acc b s.
    rewrite pretty_N_go_0, orb_false_r. f_equal. lia.
  - destruct (IH (x `div` 10)%N) as (n & Hn & _ & Hgo); [apply N.div_lt; lia|].
    exists (n + 1). split_and!; [lia|split; lia|]. intros acc b s.
    rewrite pretty_N_go_step, Hgo by lia. simpl int_digits.
    rewrite digit_value_pretty_N_char by by apply N.mod_lt.
    rewrite bool_decide_eq_true_2, orb_true_r by lia. f_equal.
    rewrite Z.pow_add_r, Z.pow_1_r by lia.
    rewrite N2Z.inj_div, N2Z.inj_mod. simpl Z.of_N.
    pose proof (Z.div_mod (Z.of_N x) 10). lia.
Qed.

(** The decimal digits of a number below [10 ^ k] are [k] at most. *)
Lemma pretty_N_go_length (k : nat) (x : N) s :
  (x < 10 ^ N.of_nat k)%N →
  (String.length (pretty_N_go x s) ≤ k + String.length s)%nat.
Proof.
  revert x s. induction k as [|k IH]; intros x s Hx.
  - assert (x = 0%N) as -> by (change (10 ^ N.of_nat 0)%N with 1%N in Hx; lia).
    by rewrite pretty_N_go_0.
  - destruct (decide (x = 0)%N) as [->|Hx0]; [rewrite pretty_N_go_0; lia|].
    rewrite pretty_N_go_step by lia.
    etrans; [apply IH|simpl; lia].
    apply N.Div0.div_lt_upper_bound.
    by rewrite Nat2N.inj_succ, N.pow_succ_r' in Hx.
Qed.

Lemma all_digits_strip (s : string) :
  all_digits s = true →
  lstrip_space s = s ∧ rstrip_space s = s ∧ rstrip "%" s = s.
Proof.
  assert (∀ c, is_Some (digit_value c) → is_space c = false ∧ c ≠ "%"%char) as Hc.
  { intros c [d Hd]. unfold digit_value in Hd. case_bool_decide as Hn; [|done].
    split.
    - unfold is_space. apply bool_decide_eq_false.
      clear Hd. set (n := nat_of_ascii c) in *. clearbody n. lia.
    - intros ->. vm_compute in Hn. lia. }
  induction s as [|c s IH]; [done|].
  intros [Hd Hs]%all_digits_cons. destruct (Hc c Hd) as [Hsp Hpc].
  destruct (IH Hs) as (_ & Hr & Hp). simpl. rewrite Hsp, Hr, Hp.
  rewrite bool_decide_eq_false_2 by done. by destruct s.
Qed.

Lemma all_digits_run (s : string) :
  all_digits s = true →
  digit_run s = (s, EmptyString) ∧ count_digits s = String.length s.
Proof.
  induction s as [|c s IH]; [done|].
  intros [[d Hd] Hs]%all_digits_cons. destruct (IH Hs) as [Hrun Hcount].
  cbn [digit_run count_digits String.length]. rewrite Hd, Hrun, Hcount.
  rewrite bool_decide_eq_true_2; [done|]. left. by eexists.
Qed.

Lemma rstrip_snoc (ch : ascii) (s : string) :
  rstrip ch (s +:+ String ch "") = rstrip ch s.
Proof.
  induction s as [|c s IH]; simpl.
  - by rewrite bool_decide_eq_true_2.
  - by rewrite IH.
Qed.

Lemma rstrip_cons_ne (ch c : ascii) (s : string) :
  c ≠ ch → rstrip ch (String c s) = String c (rstrip ch s).
Proof.
  intros Hc. simpl. destruct (rstrip ch s); [|done].
  by rewrite bool_decide_eq_false_2.
Qed.

Lemma rstrip_space_cons (c : ascii) (s : string) :
  is_space c = false → rstrip_space (String c s) = String c (rstrip_space s).
Proof.
  intros Hc. simpl. destruct (rstrip_space s); [|done]. by rewrite Hc.
Qed.

Lemma digit_not_sign (c : ascii) (d : Z) (r : string) :
  digit_value c = Some d →
  match String c r with
  | String "+" r' => (1, r')
  | String "-" r' => (-1, r')
  | _ => (1, String c r)
  end = (1, String c r).
Proof.
  intros Hd.
  destruct c as [[] [] [] [] [] [] [] []]; try reflexivity;
    vm_compute in Hd; discriminate Hd.
Qed.

(** [int] on a string of digits within the limit, bare or after a minus
    sign. *)
Lemma int_signed_digits (s : string) (n : Z) :
  all_digits s = true → (String.length s ≤ int_max_str_digits)%nat →
  int_digits 0 false s = Some n →
  int s = Ok n ∧ int (String "-" s) = Ok (- n).
Proof.
  intros Hs Hlen Hn.
  destruct (all_digits_strip s Hs) as (Hl & Hr & _).
  destruct (all_digits_run s Hs) as [Hrun Hcount].
  split.
  - unfold int. rewrite Hl, Hr.
    destruct s as [|c s']; [done|].
    pose proof Hs as [[d Hd] _]%all_digits_cons.
    rewrite (digit_not_sign c d s' Hd), Hrun, Hn, Hcount.
    rewrite bool_decide_eq_false_2 by lia. f_equal; lia.
  - unfold int. change (lstrip_space (String "-" s)) with (String "-" s).
    rewrite rstrip_space_cons, Hr by done.
    rewrite Hrun, Hn, Hcount.
    rewrite bool_decide_eq_false_2 by lia. f_equal; lia.
Qed.

(** X8.  A label of the confidence radio reads back as its level: for every
    integer [c] of at most 4300 digits, dropping the percent sign of
    [f"{c}%"] and calling [int] on the rest gives [c]. *)
Theorem label_round_trip (c : Z) :
  Z.abs c < 10 ^ Z.of_nat int_max_str_digits →
  int (rstrip "%" (pretty c +:+ "%")) = Ok c.
Proof.
  intros Hc. rewrite rstrip_snoc.
  destruct c as [|p|p]; [done|..];
    unfold pretty, pretty_Z, pretty, pretty_positive, pretty, pretty_N;
    rewrite decide_False by done;
    set (D := pretty_N_go (N.pos p) "");
    assert (all_digits D = true) as HD by (by apply all_digits_pretty_N_go);
    assert (String.length D ≤ int_max_str_digits)%nat as Hlen
      by (rewrite <- (Nat.add_0_r int_max_str_digits);
          apply (pretty_N_go_length int_max_str_digits (N.pos p) "");
          apply N2Z.inj_lt; rewrite N2Z.inj_pow, nat_N_Z; exact Hc);
    destruct (all_digits_strip D HD) as (_ & _ & HpD);
    destruct (int_digits_pretty_N_go (N.pos p)) as (n & Hn & Hn0 & Hgo);
    assert (int_digits 0 false D = Some (Z.pos p)) as Hint
      by (unfold D; rewrite Hgo; simpl;
          rewrite bool_decide_eq_true_2; [done|];
          destruct (decide (n = 0)) as [Hz|]; [|lia];
          by apply Hn0 in Hz);
    destruct (int_signed_digits D (Z.pos p) HD Hlen Hint) as [Hpos Hneg].
  - by rewrite HpD.
  - change ("-" +:+ D) with (String "-" D).
    rewrite rstrip_cons_ne, HpD by done. exact Hneg.
Qed.

Lemma label_round_trip_witness :
  int (rstrip "%" (pretty 75 +:+ "%")) = Ok 75.
Proof. apply label_round_trip. by vm_compute. Defined.

(** X9.  [rstrip] drops the run of the given character at the end of the
    string and nothing else: the string is what [rstrip] returns followed by
    a number of copies of the character, and what [rstrip] returns does not
    end with the character. *)
Theorem rstrip_trailing (ch : ascii) (s : string) :
  ∃ k, s = rstrip ch s +:+ repeat_char ch k ∧
       ends_with ch (rstrip ch s) = false.
Proof.
  induction s as [|c s (k & Hs & He)].
  - by exists 0%nat.
  - simpl. destruct (rstrip ch s) as [|c' r] eqn:Hr.
    + change (s = repeat_char ch k) in Hs. case_bool_decide as Hc.
      * exists (S k). subst c.
        change (String ch s = String ch (repeat_char ch k) ∧ false = false).
        by rewrite <- Hs.
      * exists k.
        change (String c s = String c (repeat_char ch k)
                ∧ bool_decide (c = ch) = false).
        rewrite <- Hs. split; [done|]. by apply bool_decide_eq_false.
    + exists k. split; [|done].
      change (String c s = String c (String c' r +:+ repeat_char ch k)).
      by rewrite <- Hs.
Qed.

(** ** The input form *)

Lemma first_occurrences_snoc (names : list string) name :
  first_occurrences (names ++ [name])
  = if decide (name ∈ names) then first_occurrences names
    else first_occurrences names ++ [name].
Proof.
  unfold first_occurrences. rewrite reverse_snoc. simpl.
  destruct (decide_rel elem_of name (reverse names)) as [Hin|Hin];
    rewrite elem_of_reverse in Hin.
  - by rewrite decide_True.
  - by rewrite decide_False, reverse_cons.
Qed.

Lemma first_occurrences_elem (names : list string) name :
  name ∈ first_occurrences names ↔ name ∈ names.
Proof.
  unfold first_occurrences.
  by rewrite elem_of_reverse, elem_of_remove_dups, elem_of_reverse.
Qed.

Lemma first_occurrences_NoDup (names : list string) :
  NoDup (first_occurrences names).
Proof.
  unfold first_occurrences. rewrite reverse_Permutation.
  apply NoDup_remove_dups.
Qed.

Lemma setdefault_append_groups (qs : list Question.t) q (names : list string) :
  NoDup names →
  (Question.round q ∉ names → filter (λ q', Question.round q' = Question.round q) qs = []) →
  setdefault_append (Question.round q) q (round_group qs <$> names)
  = round_group (qs ++ [q])
      <$> (if decide (Question.round q ∈ names) then names
           else names ++ [Question.round q]).
Proof.
  intros Hnd Hnew. induction Hnd as [|n names Hn Hnd IH].
  - rewrite decide_False by apply not_elem_of_nil. simpl.
    unfold round_group. rewrite filter_app, Hnew by apply not_elem_of_nil.
    by rewrite filter_cons_True.
  - rewrite fmap_cons. cbn [setdefault_append round_group].
    destruct (decide (n = Question.round q)) as [->|Hne].
    + rewrite decide_True by by left.
      rewrite fmap_cons. f_equal.
      * unfold round_group. rewrite filter_app. f_equal.
        by rewrite filter_cons_True.
      * apply list_fmap_ext. intros i m Hm. unfold round_group.
        rewrite filter_app.
        rewrite (filter_cons_False _ q); [by rewrite app_nil_r|].
        intros Heq. subst m. apply Hn. by eapply list_elem_of_lookup_2.
    + fold (round_group qs n). rewrite IH.
      * assert (round_group qs n = round_group (qs ++ [q]) n) as ->.
        { unfold round_group. rewrite filter_app.
          rewrite (filter_cons_False _ q) by congruence. by rewrite app_nil_r. }
        destruct (decide (Question.round q ∈ names)).
        -- by rewrite decide_True by by right.
        -- rewrite decide_False; [done|]. intros [?|?]%elem_of_cons; done.
      * intros Hnin. apply Hnew. intros [?|?]%elem_of_cons; done.
Qed.

(** The dict that the loop over the bank fills, in closed form. *)
Lemma rounds_closed_form (qs : list Question.t) :
  rounds qs = round_group qs <$> first_occurrences (Question.round <$> qs).
Proof.
  induction qs as [|q qs IH] using rev_ind; [done|].
  unfold rounds in *. rewrite foldl_snoc, IH.
  rewrite fmap_app. change (Question.round <$> [q]) with [Question.round q].
  rewrite first_occurrences_snoc. cbn beta.
  rewrite setdefault_append_groups.
  - f_equal. apply decide_ext. by rewrite first_occurrences_elem.
  - apply first_occurrences_NoDup.
  - intros Hnin. rewrite first_occurrences_elem in Hnin.
    clear IH. induction qs as [|q' qs' IH']; [done|].
    rewrite fmap_cons, not_elem_of_cons in Hnin. destruct Hnin as [Hne Hnin].
    rewrite filter_cons_False by done. by apply IH'.
Qed.

Lemma groups_concat {A} (key : A → string) (ks : list string) (l : list A) :
  NoDup ks → (∀ x, x ∈ l → key x ∈ ks) →
  mjoin ((λ k, filter (λ x, key x = k) l) <$> ks) ≡ₚ l.
Proof.
  intros Hnd. revert l. induction Hnd as [|k ks Hk Hnd IH]; intros l Hin.
  - destruct l as [|x l]; [done|].
    specialize (Hin x (list_elem_of_here _ _)). by apply not_elem_of_nil in Hin.
  - rewrite fmap_cons. simpl.
    etrans; [|apply (filter_app_complement (λ x, key x = k) l)].
    f_equiv. rewrite <- (IH (filter (λ x, ¬ key x = k) l)).
    + assert ((λ k0, filter (λ x, key x = k0) l) <$> ks
              = (λ k0, filter (λ x, key x = k0)
                         (filter (λ x, ¬ key x = k) l)) <$> ks) as ->; [|done].
      apply Forall_fmap_ext_1, Forall_forall. intros k0 Hk0.
      rewrite list_filter_filter_l; [done|]. intros x -> ->. done.
    + intros x [Hx Hxl]%list_elem_of_filter.
      apply Hin, elem_of_cons in Hxl as [?|?]; done.
Qed.

Lemma rounds_concat (qs : list Question.t) : mjoin ((rounds qs).*2) ≡ₚ qs.
Proof.
  rewrite rounds_closed_form, <- list_fmap_compose.
  apply (groups_concat Question.round); [apply first_occurrences_NoDup|].
  intros q Hq. apply first_occurrences_elem, list_elem_of_fmap. eauto.
Qed.

(** X10.  The expanders of the form come in the order in which their round
    labels first occur in the bank, and each holds the questions of its
    label in the order of the bank. *)
Theorem rounds_in_bank_order (qs : list Question.t) :
  (rounds qs).*1 = first_occurrences (Question.round <$> qs) ∧
  ∀ round, round ∈ rounds qs →
    round.2 = filter (λ q, Question.round q = round.1) qs.
Proof.
  rewrite rounds_closed_form. split.
  - rewrite <- list_fmap_compose. apply list_fmap_id.
  - by intros round (name & -> & _)%list_elem_of_fmap.
Qed.

(** X11.  The rounds partition the bank: every question is in exactly one
    round, no round label comes twice and no round is empty. *)
Theorem rounds_partition (qs : list Question.t) :
  mjoin ((rounds qs).*2) ≡ₚ qs ∧
  NoDup ((rounds qs).*1) ∧
  ∀ round, round ∈ rounds qs → round.2 ≠ [].
Proof.
  split; [apply rounds_concat|]. rewrite rounds_closed_form. split.
  - rewrite <- list_fmap_compose. rewrite list_fmap_id.
    apply first_occurrences_NoDup.
  - intros round (name & -> & Hname)%list_elem_of_fmap.
    apply first_occurrences_elem, list_elem_of_fmap in Hname as (q & -> & Hq).
    simpl. intros Hnil.
    assert (q ∈ filter (λ q', Question.round q' = Question.round q) qs) as Hin
      by by apply list_elem_of_filter.
    rewrite Hnil in Hin. by apply not_elem_of_nil in Hin.
Qed.

Lemma render_form_widget (qs : list Question.t) round w :
  round ∈ render_form qs → w ∈ round.2 →
  ∃ q, q ∈ qs ∧ w ∈ render_question q.
Proof.
  unfold render_form. rewrite rounds_closed_form, <- list_fmap_compose.
  intros (name & -> & _)%list_elem_of_fmap. simpl.
  intros (q & Hw & [_ Hq]%list_elem_of_filter)%list_elem_of_bind. eauto.
Qed.

Lemma radio_keys_render (qs : list Question.t) :
  omap radio_key (qs ≫= render_question) = qs ≫= question_keys.
Proof.
  induction qs as [|q qs IH]; [done|].
  rewrite !bind_cons, omap_app, IH. done.
Qed.

Lemma radio_keys_form (qs : list Question.t) :
  radio_keys (render_form qs) ≡ₚ qs ≫= question_keys.
Proof.
  rewrite <- (rounds_concat qs) at 2.
  unfold radio_keys, render_form.
  induction (rounds qs) as [|[name round] rs IH]; [done|].
  rewrite fmap_cons, bind_cons. cbn [fst snd fmap list_fmap mjoin list_join].
  rewrite bind_app, radio_keys_render. by f_equiv.
Qed.

Lemma question_keys_elem (qs : list Question.t) key :
  key ∈ qs ≫= question_keys ↔
  ∃ q, q ∈ qs ∧ (key = ans_key q ∨ key = conf_key q).
Proof.
  rewrite list_elem_of_bind. unfold question_keys.
  split; intros (q & H1 & H2); exists q.
  - rewrite !elem_of_cons, elem_of_nil in H1. tauto.
  - rewrite !elem_of_cons, elem_of_nil. tauto.
Qed.

(** X12.  The radios of the form have pairwise distinct keys exactly when
    the questions of the bank have pairwise distinct ids. *)
Theorem radio_keys_unique (qs : list Question.t) :
  NoDup (radio_keys (render_form qs)) ↔ NoDup (Question.id <$> qs).
Proof.
  rewrite radio_keys_form.
  induction qs as [|q qs IH]; [by split; constructor|].
  rewrite bind_cons, fmap_cons. unfold question_keys at 1.
  cbn [app]. rewrite !NoDup_cons, IH, elem_of_cons, !question_keys_elem.
  rewrite list_elem_of_fmap.
  split.
  - intros (Ha & Hc & Hnd). split; [|done].
    intros (q' & Hid & Hq'). apply Hc. exists q'. split; [done|]. right.
    by apply keys_of_id.
  - intros (Hid & Hnd). split_and!; [| |done].
    + intros [Heq|(q' & Hq' & [Heq|Heq])].
      * by apply ans_conf_key_ne in Heq.
      * apply Hid. exists q'. split; [|done]. by apply ans_key_inj.
      * by apply ans_conf_key_ne in Heq.
    + intros (q' & Hq' & [Heq|Heq]).
      * symmetry in Heq. by apply ans_conf_key_ne in Heq.
      * apply Hid. exists q'. split; [|done]. by apply conf_key_inj.
Qed.

(** X13.  On a session that holds nothing but options chosen from the
    radios of the form, the collector does not raise, and every row it
    returns has one of the five confidence levels and, as selected answer,
    one of the two options of a question of the bank with the id of the
    row; the handler of the score button does not raise either. *)
Theorem collect_from_form fl (ss : gmap string string) qs :
  chosen_from (render_form qs) ss →
  (∃ rows, collect_responses ss qs = Ok rows ∧
     ∀ r, r ∈ rows →
       Row.confidence_percent r ∈ CONFIDENCE_LEVELS ∧
       ∃ q, q ∈ qs ∧ Row.id r = Question.id q ∧
            (Row.selected_answer r = Question.option_1 q ∨
             Row.selected_answer r = Question.option_2 q)) ∧
  ∃ events, score fl ss qs = Ok events.
Proof.
  intros Hform.
  assert (∀ q c, ss !! conf_key q = Some c → c ∈ confidence_labels) as Hconf.
  { intros q c Hc.
    destruct (Hform _ _ Hc) as (round & l & os & i & h & Hr & Hw & Hv).
    destruct (render_form_widget qs round _ Hr Hw) as (q' & _ & Hq').
    unfold render_question in Hq'. rewrite !elem_of_cons in Hq'.
    destruct Hq' as [Heq|[Heq|[Heq|[Heq|Hq']]]];
      [discriminate Heq| | |discriminate Heq|by apply elem_of_nil in Hq'].
    - assert (conf_key q = ans_key q') as Hkey by congruence.
      symmetry in Hkey. by apply ans_conf_key_ne in Hkey.
    - assert (os = confidence_labels) as -> by congruence. done. }
  assert (∀ c, c ∈ confidence_labels →
            ∃ n, int (rstrip "%" c) = Ok n ∧ n ∈ CONFIDENCE_LEVELS) as Hlabel.
  { intros c Hc. unfold confidence_labels, CONFIDENCE_LEVELS in *.
    rewrite !fmap_cons, !elem_of_cons in Hc.
    destruct Hc as [->|[->|[->|[->|[->|Hc]]]]];
      [..|by apply elem_of_nil in Hc]; eexists; (split; [reflexivity|]);
      rewrite !elem_of_cons; tauto. }
  destruct (collect_responses_total ss qs) as [rows Hrows].
  { intros q c _ Hc. right. destruct (Hlabel c (Hconf q c Hc)) as (n & ? & _).
    by exists n. }
  split.
  - exists rows. split; [done|]. intros r Hr.
    apply (collect_responses_elem _ _ _ _ Hrows) in Hr as (q & Hq & Hrow).
    apply collect_row_append in Hrow as (a & c & n & Ha & Hc & _ & _ & Hn & ->).
    simpl. split.
    + destruct (Hlabel c (Hconf q c Hc)) as (n' & Hn' & ?). congruence.
    + destruct (Hform _ _ Ha) as (round & l & os & i & h & Hr & Hw & Hv).
      destruct (render_form_widget qs round _ Hr Hw) as (q' & Hq'in & Hq').
      unfold render_question in Hq'. rewrite !elem_of_cons in Hq'.
      destruct Hq' as [Heq|[Heq|[Heq|[Heq|Hq']]]];
        [discriminate Heq| | |discriminate Heq|by apply elem_of_nil in Hq'].
      * assert (ans_key q = ans_key q') as Hkey by congruence.
        assert (os = [Question.option_1 q'; Question.option_2 q']) as ->
          by congruence.
        exists q'. split; [done|]. split; [by apply ans_key_inj|].
        rewrite !elem_of_cons in Hv. destruct Hv as [?|[?|Hv]]; auto.
        by apply elem_of_nil in Hv.
      * assert (ans_key q = conf_key q') as Hkey by congruence.
        by apply ans_conf_key_ne in Hkey.
  - unfold score, score_with. rewrite Hrows. simpl.
    destruct rows as [|r rows]; [by eexists|].
    rewrite bool_decide_eq_false_2 by (simpl; lia).
    rewrite (compute_calibration_rows fl (r :: rows)) by done. by eexists.
Qed.

Lemma collect_from_form_witness :
  let ss : gmap string string :=
    <["ans_1" := "False"]> (<["conf_1" := "75%"]> ∅) in
  (∃ rows, collect_responses ss EXAMPLE_QUESTIONS = Ok rows ∧
     ∀ r, r ∈ rows →
       Row.confidence_percent r ∈ CONFIDENCE_LEVELS ∧
       ∃ q, q ∈ EXAMPLE_QUESTIONS ∧ Row.id r = Question.id q ∧
            (Row.selected_answer r = Question.option_1 q ∨
             Row.selected_answer r = Question.option_2 q)) ∧
  ∃ events, score binary64 ss EXAMPLE_QUESTIONS = Ok events.
Proof.
  intros ss. apply collect_from_form. intros key v Hkey.
  exists ("Round 1 - Example T/F",
          [Question.mk 1 "Round 1 - Example T/F"
             "The blue whale is the largest animal species on Earth."
             "tf" "True" "False" 1;
           Question.mk 2 "Round 1 - Example T/F"
             "Polar bears naturally live in Antarctica."
             "tf" "True" "False" 2] ≫= render_question).
  unfold ss in Hkey.
  apply lookup_insert_Some in Hkey as [[<- <-]|[_ Hkey]];
    [|apply lookup_insert_Some in Hkey as [[<- <-]|[_ Hkey]];
      [|by rewrite lookup_empty in Hkey]].
  - exists "Your answer:", ["True"; "False"], None, false.
    split_and!; [by vm_compute; left| |by right; left].
    vm_compute. right; left.
  - exists "Your confidence:", confidence_labels, None, true.
    split_and!; [by vm_compute; left| |].
    + vm_compute. do 2 right; left.
    + vm_compute. do 2 right; left.
Defined.

(** ** The handler of the score button and the raw responses *)

(** X14.  The handler of the score button has three outcomes, which the
    collector decides: the warning when the collector returns no row; the
    summary, the table and the chart of the engine's result on the rows, of
    which the summary shows the number, when it returns some; and the
    exception of the collector when it raises.  The handler raises nothing
    of its own. *)
Theorem score_outcome fl (ss : gmap string string) qs :
  (collect_responses ss qs = Ok [] →
     score fl ss qs = Ok [Warning "You need to answer at least one questions."]) ∧
  (∀ rows, collect_responses ss qs = Ok rows → rows ≠ [] →
     ∃ grouped brier accuracy,
       compute_calibration fl rows
         = Calibration grouped brier accuracy (length rows) ∧
       score fl ss qs
         = Ok [Summary (length rows) accuracy brier; Table grouped; Chart grouped]) ∧
  (∀ e, score fl ss qs = Raise e ↔ collect_responses ss qs = Raise e).
Proof.
  unfold score, score_with. split_and!.
  - by intros ->.
  - intros rows -> Hne. rewrite (compute_calibration_rows fl rows Hne).
    do 3 eexists. split; [done|]. simpl.
    rewrite (compute_calibration_rows fl rows Hne).
    rewrite bool_decide_eq_false_2; [done|]. destruct rows; [done|simpl; lia].
  - intros e. destruct (collect_responses ss qs) as [rows|e'] eqn:Hc; simpl;
      [|split; congruence].
    destruct rows as [|r rows]; [by split|].
    rewrite bool_decide_eq_false_2 by (simpl; lia).
    rewrite (compute_calibration_rows fl (r :: rows)) by done. by split.
Qed.

Lemma score_outcome_witness :
  let rows :=
    [ scored_row (Question.mk 1 "Round 1 - Example T/F"
        "The blue whale is the largest animal species on Earth."
        "tf" "True" "False" 1) "True" 75;
      scored_row (Question.mk 2 "Round 1 - Example T/F"
        "Polar bears naturally live in Antarctica." "tf" "True" "False" 2)
        "True" 95 ] in
  ∃ grouped brier accuracy,
    compute_calibration binary64 rows
      = Calibration grouped brier accuracy (length rows) ∧
    score binary64 demo_session EXAMPLE_QUESTIONS
      = Ok [Summary (length rows) accuracy brier; Table grouped; Chart grouped].
Proof.
  intros rows.
  apply (proj1 (proj2 (score_outcome binary64 demo_session EXAMPLE_QUESTIONS))).
  - vm_compute. reflexivity.
  - discriminate.
Defined.

(** X15.  The raw responses go with the handler of the score button: the
    expander writes "No responses yet." exactly when the handler warns, it
    shows a frame exactly when the collector returns rows, that frame, and
    it raises exactly what the handler raises. *)
Theorem raw_view_agrees fl (ss : gmap string string) qs :
  (show_raw_responses ss qs = Ok (Write "No responses yet.") ↔
   score fl ss qs = Ok [Warning "You need to answer at least one questions."]) ∧
  (∀ rows, show_raw_responses ss qs = Ok (ShowFrame rows) ↔
     collect_responses ss qs = Ok rows ∧ rows ≠ []) ∧
  (∀ e, show_raw_responses ss qs = Raise e ↔ score fl ss qs = Raise e).
Proof.
  unfold show_raw_responses, score, score_with.
  destruct (collect_responses ss qs) as [[|r rows]|e]; simpl.
  - split_and!; [done| |by split]. intros rows. split; [done|]. by intros [[= <-] ?].
  - split_and!; [by split| |by split].
    intros rows'. split; [intros [= <-]; by split|]. by intros [[= <-] _].
  - split_and!; [by split|by intros; split; [|intros []]|].
    intros e'. split; congruence.
Qed.

(** ** The engine: counts *)

Lemma group_sums {A} (key : A → Z) (w : A → Z) (ks : list Z) (l : list A) :
  NoDup ks → (∀ x, x ∈ l → key x ∈ ks) →
  sum_Z ((λ k, sum_Z (w <$> filter (λ x, key x = k) l)) <$> ks)
  = sum_Z (w <$> l).
Proof.
  assert (∀ l1 l2 : list A, l1 ≡ₚ l2 → sum_Z (w <$> l1) = sum_Z (w <$> l2)) as Hperm.
  { unfold sum_Z. induction 1; csimpl; lia. }
  assert (∀ l1 l2 : list A, sum_Z (w <$> (l1 ++ l2))
            = sum_Z (w <$> l1) + sum_Z (w <$> l2)) as Happ.
  { unfold sum_Z. intros l1 l2. induction l1; csimpl; lia. }
  intros Hnd. revert l. induction Hnd as [|k ks Hk Hnd IH]; intros l Hin.
  - destruct l as [|x l]; [done|].
    specialize (Hin x (list_elem_of_here _ _)). by apply not_elem_of_nil in Hin.
  - rewrite fmap_cons. cbn [sum_Z foldr]. fold sum_Z.
    assert ((λ k0, sum_Z (w <$> filter (λ x, key x = k0) l)) <$> ks
            = (λ k0, sum_Z (w <$> filter (λ x, key x = k0)
                                    (filter (λ x, ¬ key x = k) l))) <$> ks) as ->.
    { apply Forall_fmap_ext_1, Forall_forall. intros k0 Hk0.
      rewrite list_filter_filter_l; [done|]. intros x -> ->. done. }
    rewrite IH.
    + rewrite <- Happ. apply Hperm, filter_app_complement.
    + intros x [Hx Hxl]%list_elem_of_filter.
      apply Hin, elem_of_cons in Hxl as [?|?]; done.
Qed.

Lemma sum_bool_sum_Z bs : sum_bool bs = sum_Z (astype_int <$> bs).
Proof. induction bs; simpl; [done|]. by rewrite IHbs. Qed.

(** X16.  The [n_correct] of the buckets add up to the number of correct
    rows of the frame. *)
Theorem correct_counts_add_up fl (df : list Row.t) :
  df ≠ [] →
  ∃ grouped brier accuracy,
    compute_calibration fl df = Calibration grouped brier accuracy (length df) ∧
    sum_Z (Bucket.n_correct <$> grouped)
    = Z.of_nat (length (filter (λ r, Row.is_correct r = true) df)).
Proof.
  intros Hdf. rewrite (compute_calibration_rows fl df Hdf).
  do 3 eexists. split; [done|].
  rewrite <- sum_bool_count.
  unfold groupby. rewrite <- !list_fmap_compose.
  rewrite sum_bool_sum_Z, <- list_fmap_compose.
  rewrite <- (group_sums Row.confidence_percent (astype_int ∘ Row.is_correct)
                (sorted_keys (Row.confidence_percent <$> df)) df).
  - f_equal. apply list_fmap_ext. intros _ k _. simpl.
    by rewrite sum_bool_sum_Z, <- list_fmap_compose.
  - apply sorted_keys_NoDup.
  - intros r Hr. apply sorted_keys_elem, list_elem_of_fmap. eauto.
Qed.

Lemma correct_counts_add_up_witness :
  ∃ grouped brier accuracy,
    compute_calibration binary64 demo_rows
      = Calibration grouped brier accuracy (length demo_rows) ∧
    sum_Z (Bucket.n_correct <$> grouped)
    = Z.of_nat (length (filter (λ r, Row.is_correct r = true) demo_rows)).
Proof. apply correct_counts_add_up. discriminate. Defined.

(** ** The engine over the rational numbers: ranges *)

Lemma Qc_Z2Qc n : (Z2Qc n : Q) == inject_Z n.
Proof. unfold Z2Qc. simpl. apply Qred_correct. Qed.

Lemma Qc_plus (x y : Qc) : ((x + y)%Qc : Q) == (x : Q) + (y : Q).
Proof. simpl. apply Qred_correct. Qed.

Lemma Qc_minus (x y : Qc) : ((x - y)%Qc : Q) == (x : Q) - (y : Q).
Proof. unfold Qcminus. rewrite Qc_plus. simpl. by rewrite Qred_correct. Qed.

Lemma Qc_mult (x y : Qc) : ((x * y)%Qc : Q) == (x : Q) * (y : Q).
Proof. simpl. apply Qred_correct. Qed.

Lemma Qc_div (x y : Qc) : ((x / y)%Qc : Q) == (x : Q) / (y : Q).
Proof. unfold Qcdiv. rewrite Qc_mult. simpl. by rewrite Qred_correct. Qed.

Lemma Z2Qc_add a b : Z2Qc (a + b) = (Z2Qc a + Z2Qc b)%Qc.
Proof.
  apply Qc_is_canon. unfold Z2Qc. simpl.
  rewrite !Qred_correct. by rewrite inject_Z_plus.
Qed.

Lemma ratio_range (k n : Z) :
  0 ≤ k ≤ n → 0 < n → (Q2Qc 0 <= Z2Qc k / Z2Qc n <= Q2Qc 1)%Qc.
Proof.
  intros Hk Hn. unfold Qcle. rewrite Qc_div, !Qc_Z2Qc. simpl (this (Q2Qc _)).
  assert (0 < inject_Z n)%Q by (change 0%Q with (inject_Z 0); by rewrite <- Zlt_Qlt).
  split.
  - apply Qle_shift_div_l; [done|]. rewrite Qmult_0_l.
    change 0%Q with (inject_Z 0). rewrite <- Zle_Qle. lia.
  - apply Qle_shift_div_r; [done|]. rewrite Qmult_1_l. rewrite <- Zle_Qle. lia.
Qed.

Lemma squared_error_range (r : Row.t) :
  0 ≤ Row.confidence_percent r ≤ 100 →
  (Q2Qc 0 <= squared_error r <= Q2Qc 1)%Qc.
Proof.
  intros Hc. unfold squared_error.
  set (t := (Z2Qc (Row.confidence_percent r) / Z2Qc 100)%Qc).
  assert (0 <= (t : Q) <= 1)%Q as Ht.
  { apply (ratio_range (Row.confidence_percent r) 100); lia. }
  unfold Qcle. simpl (this (Q2Qc _)).
  change ((t - outcome r) ^ 2)%Qc with ((t - outcome r) * ((t - outcome r) * Q2Qc 1))%Qc.
  rewrite !Qc_mult, !Qc_minus. simpl (this (Q2Qc 1)).
  unfold outcome. destruct (Row.is_correct r); simpl (this (Q2Qc _));
    set (x := (t : Q)) in *; clearbody x;
    change (Qred 1) with 1%Q; change (Qred 0) with 0%Q; split; nra.
Qed.

Lemma sum_Qc_range (xs : list Qc) :
  Forall (λ x, Q2Qc 0 <= x <= Q2Qc 1)%Qc xs →
  (0 <= (sum_Qc xs : Q) <= inject_Z (Z.of_nat (length xs)))%Q.
Proof.
  induction 1 as [|x xs [Hx0 Hx1] _ IH].
  - simpl. change (Qred 0) with 0%Q. split; apply Qle_refl.
  - change (sum_Qc (x :: xs)) with (x + sum_Qc xs)%Qc. rewrite Qc_plus.
    rewrite length_cons, Nat2Z.inj_succ. unfold Z.succ. rewrite inject_Z_plus.
    unfold Qcle in Hx0, Hx1. simpl in Hx0, Hx1.
    change (Qred 0) with 0%Q in Hx0. change (Qred 1) with 1%Q in Hx1.
    change (inject_Z 1) with 1%Q. lra.
Qed.

Lemma arithmetic_mean_range (xs : list Qc) :
  xs ≠ [] → Forall (λ x, Q2Qc 0 <= x <= Q2Qc 1)%Qc xs →
  (Q2Qc 0 <= arithmetic_mean xs <= Q2Qc 1)%Qc.
Proof.
  intros Hne Hxs. pose proof (sum_Qc_range xs Hxs) as [H0 H1].
  unfold arithmetic_mean, Qcle. rewrite Qc_div, Qc_Z2Qc. simpl (this (Q2Qc _)).
  change (Qred 1) with 1%Q; change (Qred 0) with 0%Q.
  assert (0 < inject_Z (Z.of_nat (length xs)))%Q as Hn.
  { change 0%Q with (inject_Z 0). rewrite <- Zlt_Qlt. destruct xs; [done|simpl; lia]. }
  split.
  - apply Qle_shift_div_l; [done|]. by rewrite Qmult_0_l.
  - apply Qle_shift_div_r; [done|]. by rewrite Qmult_1_l.
Qed.

Lemma exact_mean_bool (bs : list bool) :
  bs ≠ [] →
  mean_bool exact bs = Some (Z2Qc (sum_bool bs) / Z2Qc (Z.of_nat (length bs)))%Qc.
Proof.
  destruct bs as [|b bs]; [done|]. intros _. unfold mean_bool.
  set (n := Z.of_nat (length (b :: bs))).
  assert (n ≠ 0) as Hn by (unfold n; simpl; lia).
  cbn [fdiv of_int exact]. unfold exact_div. cbn [mbind option_bind].
  by rewrite decide_False by by rewrite Z2Qc_eq_0.
Qed.

(** X17.  Over the rationals the accuracy is the number of correct rows
    divided by the number of rows, a number between 0 and 1. *)
Theorem exact_accuracy (df : list Row.t) :
  df ≠ [] →
  ∃ grouped brier accuracy,
    compute_calibration exact df
      = Calibration grouped brier (Some accuracy) (length df) ∧
    accuracy = (Z2Qc (Z.of_nat (length (filter (λ r, Row.is_correct r = true) df)))
                / Z2Qc (Z.of_nat (length df)))%Qc ∧
    (Q2Qc 0 <= accuracy <= Q2Qc 1)%Qc.
Proof.
  intros Hdf. rewrite (compute_calibration_rows exact df Hdf).
  rewrite exact_mean_bool by by destruct df.
  do 3 eexists. split; [done|]. rewrite length_fmap, sum_bool_count.
  split; [done|].
  pose proof (sum_bool_bounds (Row.is_correct <$> df)) as Hb.
  rewrite length_fmap, sum_bool_count in Hb. apply ratio_range; [done|].
  destruct df; [done|simpl; lia].
Qed.

Lemma exact_accuracy_witness :
  ∃ grouped brier accuracy,
    compute_calibration exact demo_rows
      = Calibration grouped brier (Some accuracy) (length demo_rows) ∧
    accuracy = (Z2Qc (Z.of_nat (length (filter (λ r, Row.is_correct r = true)
                                          demo_rows)))
                / Z2Qc (Z.of_nat (length demo_rows)))%Qc ∧
    (Q2Qc 0 <= accuracy <= Q2Qc 1)%Qc.
Proof. apply exact_accuracy. discriminate. Defined.

(** X18.  Over the rationals the Brier score of a frame whose confidences
    all lie between 0 and 100 lies between 0 and 1. *)
Theorem exact_brier_range (df : list Row.t) :
  df ≠ [] →
  (∀ r, r ∈ df → 0 ≤ Row.confidence_percent r ≤ 100) →
  ∃ grouped brier accuracy,
    compute_calibration exact df
      = Calibration grouped (Some brier) accuracy (length df) ∧
    (Q2Qc 0 <= brier <= Q2Qc 1)%Qc.
Proof.
  intros Hdf Hconf. rewrite (compute_calibration_rows exact df Hdf).
  rewrite (exact_brier df Hdf). do 3 eexists. split; [done|].
  apply arithmetic_mean_range; [by destruct df|].
  apply Forall_fmap, Forall_forall. intros r Hr. simpl.
  by apply squared_error_range, Hconf.
Qed.

Lemma exact_brier_range_witness :
  ∃ grouped brier accuracy,
    compute_calibration exact demo_rows
      = Calibration grouped (Some brier) accuracy (length demo_rows) ∧
    (Q2Qc 0 <= brier <= Q2Qc 1)%Qc.
Proof.
  apply exact_brier_range; [discriminate|].
  apply Forall_forall. unfold demo_rows.
  repeat (constructor; [simpl; lia|]). constructor.
Defined.

(** X19.  Over the rationals the [percent_correct] of every bucket lies
    between 0 and 100. *)
Theorem exact_percent_range (df : list Row.t) :
  df ≠ [] →
  ∃ grouped brier accuracy,
    compute_calibration exact df = Calibration grouped brier accuracy (length df) ∧
    ∀ b, b ∈ grouped →
      ∃ p, Bucket.percent_correct b = Some p ∧ (Q2Qc 0 <= p <= Z2Qc 100)%Qc.
Proof.
  intros Hdf. rewrite (compute_calibration_rows exact df Hdf).
  do 3 eexists. split; [done|].
  intros b (k & (r & Hr & Hk) & ->)%grouped_elem.
  set (g := filter _ df).
  assert (r ∈ g) as Hg by by apply list_elem_of_filter.
  pose proof (sum_bool_bounds (Row.is_correct <$> g)) as Hb.
  assert (0 < Z.of_nat (length (Row.is_correct <$> g))) as Hn.
  { rewrite length_fmap. destruct g; [by apply not_elem_of_nil in Hg|simpl; lia]. }
  cbn [bucket_of_group Bucket.percent_correct fst snd].
  set (nc := sum_bool _) in *. set (nq := Z.of_nat _) in *.
  eexists. split; [apply exact_percent; lia|].
  destruct (ratio_range nc nq) as [H0 H1]; [done..|].
  unfold Qcle in *. rewrite Qc_div, Qc_mult, !Qc_Z2Qc in *.
  simpl (this (Q2Qc _)) in *. change (Qred 1) with 1%Q in *.
  change (Qred 0) with 0%Q in *.
  change (inject_Z 100) with 100%Q.
  assert (100 * inject_Z nc / inject_Z nq == 100 * (inject_Z nc / inject_Z nq))%Q
    as -> by (unfold Qdiv; ring).
  split; lra.
Qed.

Lemma exact_percent_range_witness :
  ∃ grouped brier accuracy,
    compute_calibration exact demo_rows
      = Calibration grouped brier accuracy (length demo_rows) ∧
    ∀ b, b ∈ grouped →
      ∃ p, Bucket.percent_correct b = Some p ∧ (Q2Qc 0 <= p <= Z2Qc 100)%Qc.
Proof. apply exact_percent_range. discriminate. Defined.

Lemma group_sums_Qc {A} (key : A → Z) (w : A → Qc) (ks : list Z) (l : list A) :
  NoDup ks → (∀ x, x ∈ l → key x ∈ ks) →
  sum_Qc ((λ k, sum_Qc (w <$> filter (λ x, key x = k) l)) <$> ks)
  = sum_Qc (w <$> l).
Proof.
  intros Hnd. revert l. induction Hnd as [|k ks Hk Hnd IH]; intros l Hin.
  - destruct l as [|x l]; [done|].
    specialize (Hin x (list_elem_of_here _ _)). by apply not_elem_of_nil in Hin.
  - rewrite fmap_cons. cbn [sum_Qc foldr]. fold sum_Qc.
    assert ((λ k0, sum_Qc (w <$> filter (λ x, key x = k0) l)) <$> ks
            = (λ k0, sum_Qc (w <$> filter (λ x, key x = k0)
                                     (filter (λ x, ¬ key x = k) l))) <$> ks) as ->.
    { apply Forall_fmap_ext_1, Forall_forall. intros k0 Hk0.
      rewrite list_filter_filter_l; [done|]. intros x -> ->. done. }
    rewrite IH.
    + rewrite <- sum_Qc_app, <- fmap_app. apply sum_Qc_perm.
      by rewrite filter_app_complement.
    + intros x [Hx Hxl]%list_elem_of_filter.
      apply Hin, elem_of_cons in Hxl as [?|?]; done.
Qed.

Lemma bucket_squared_error_group (k : Z) (g : list Row.t) :
  Forall (λ r, Row.confidence_percent r = k) g →
  bucket_squared_error (bucket_of_group exact (k, g))
  = sum_Qc (squared_error <$> g).
Proof.
  unfold bucket_squared_error. cbn [bucket_of_group Bucket.n_correct
    Bucket.n_questions Bucket.stated_confidence fst snd].
  set (t := (Z2Qc k / Z2Qc 100)%Qc).
  induction 1 as [|r g Hr _ IH].
  - simpl. change (Z2Qc 0) with (Q2Qc 0).
    change (Z2Qc (Z.of_nat 0 - 0)) with (Q2Qc 0). ring.
  - rewrite !fmap_cons. unfold sum_Qc, sum_bool. cbn [foldr length].
    fold (sum_Qc (squared_error <$> g)). fold (sum_bool (Row.is_correct <$> g)).
    rewrite <- IH. rewrite Nat2Z.inj_succ. unfold squared_error, outcome.
    rewrite Hr. fold t.
    set (nc := sum_bool _). set (n := Z.of_nat _).
    destruct (Row.is_correct r); cbn [astype_int].
    + replace (Z.succ n - (1 + nc)) with (n - nc) by lia.
      rewrite Z2Qc_add. change (Z2Qc 1) with (Q2Qc 1). cbn [Qcpower]. ring.
    + replace (Z.succ n - (0 + nc)) with (1 + (n - nc)) by lia.
      rewrite !Z2Qc_add. change (Z2Qc 1) with (Q2Qc 1).
      change (Z2Qc 0) with (Q2Qc 0). cbn [Qcpower]. ring.
Qed.

(** X20.  Over the rationals the Brier score can be read off the table of
    the buckets: times the number of rows it is the sum, over the buckets,
    of [n_correct] times [(c / 100 - 1) ^ 2] plus [n_questions - n_correct]
    times [(c / 100) ^ 2], where [c] is the confidence level of the
    bucket. *)
Theorem brier_from_buckets (df : list Row.t) :
  df ≠ [] →
  ∃ grouped brier accuracy,
    compute_calibration exact df
      = Calibration grouped (Some brier) accuracy (length df) ∧
    (brier * Z2Qc (Z.of_nat (length df))
     = sum_Qc (bucket_squared_error <$> grouped))%Qc.
Proof.
  intros Hdf. rewrite (compute_calibration_rows exact df Hdf).
  rewrite (exact_brier df Hdf). do 3 eexists. split; [done|].
  unfold arithmetic_mean. rewrite length_fmap.
  assert (Z2Qc (Z.of_nat (length df)) ≠ Q2Qc 0) as Hn.
  { rewrite Z2Qc_eq_0. destruct df; [done|simpl; lia]. }
  assert (sum_Qc (squared_error <$> df) / Z2Qc (Z.of_nat (length df))
          * Z2Qc (Z.of_nat (length df)) = sum_Qc (squared_error <$> df))%Qc as ->
    by by field.
  unfold groupby. rewrite <- !list_fmap_compose.
  rewrite <- (group_sums_Qc Row.confidence_percent squared_error
                (sorted_keys (Row.confidence_percent <$> df)) df).
  - f_equal. apply list_fmap_ext. intros _ k _. simpl.
    symmetry. apply bucket_squared_error_group, Forall_forall.
    by intros r [? _]%list_elem_of_filter.
  - apply sorted_keys_NoDup.
  - intros r Hr. apply sorted_keys_elem, list_elem_of_fmap. eauto.
Qed.

Lemma brier_from_buckets_witness :
  ∃ grouped brier accuracy,
    compute_calibration exact demo_rows
      = Calibration grouped (Some brier) accuracy (length demo_rows) ∧
    (brier * Z2Qc (Z.of_nat (length demo_rows))
     = sum_Qc (bucket_squared_error <$> grouped))%Qc.
Proof. apply brier_from_buckets. discriminate. Defined.

(** ** The engine in binary64: the accuracy *)

Lemma ratio_within_tolerance (k n : Z) :
  0 ≤ k ≤ n → 0 < n < 2 ^ 53 →
  ∃ v : Q,
    float_value (fdiv binary64 (of_int binary64 k) (of_int binary64 n)) = Some v ∧
    (Qabs (v - inject_Z k / inject_Z n) <= 1 # 1000000000)%Q.
Proof.
  intros Hc Hq.
  destruct (of_int_normal n Hq) as (mq & eq & Hnq & Hmq & Heq & Hvq).
  assert (0 < inject_Z n)%Q as Hqpos.
  { change 0%Q with (inject_Z 0). rewrite <- Zlt_Qlt. lia. }
  destruct (decide (k = 0)) as [->|Hc0].
  - exists 0%Q. rewrite Hnq. split; [done|].
    apply Qabs_Qle_condition.
    assert (0 - inject_Z 0 / inject_Z n == 0)%Q as ->.
    { unfold Qdiv. change (inject_Z 0) with 0%Q. ring. }
    split; done.
  - destruct (of_int_normal k) as (mc & ec & Hnc & Hmc & Hec & Hvc); [lia|].
    rewrite Hnc, Hnq. change (fdiv binary64) with (SFdiv prec emax).
    destruct (SFdiv_normal mc mq ec eq) as (m3 & e3 & -> & Hm3 & He3 & Hr1);
      [lia..|].
    eexists. split; [done|].
    set (v1 := (inject_Z (Z.pos m3) * 2 ^ e3)%Q) in *.
    set (x1 := (inject_Z k / inject_Z n)%Q).
    eapply (within_rounding_eq _ _ x1) in Hr1; [|by rewrite Hvc, Hvq].
    assert (0 <= x1 <= 1)%Q as Hx1.
    { unfold x1. split.
      - apply Qle_shift_div_l; [done|]. rewrite Qmult_0_l.
        change 0%Q with (inject_Z 0). rewrite <- Zle_Qle. lia.
      - apply Qle_shift_div_r; [done|]. rewrite Qmult_1_l.
        rewrite <- Zle_Qle. lia. }
    unfold within_rounding in Hr1.
    apply Qabs_Qle_condition. split; lra.
Qed.

(** X21.  In binary64, on a frame of fewer than [2 ^ 53] rows, the accuracy
    is a finite float within [1e-9] of the number of correct rows divided by
    the number of rows. *)
Theorem accuracy_within_tolerance (df : list Row.t) :
  df ≠ [] → Z.of_nat (length df) < 2 ^ 53 →
  ∃ grouped brier accuracy (v : Q),
    compute_calibration binary64 df
      = Calibration grouped brier accuracy (length df) ∧
    float_value accuracy = Some v ∧
    (Qabs (v - inject_Z (Z.of_nat (length (filter (λ r, Row.is_correct r = true) df)))
               / inject_Z (Z.of_nat (length df)))
     <= 1 # 1000000000)%Q.
Proof.
  intros Hdf Hlen. rewrite (compute_calibration_rows binary64 df Hdf).
  pose proof (sum_bool_bounds (Row.is_correct <$> df)) as Hb.
  rewrite length_fmap in Hb.
  assert (0 < Z.of_nat (length df)) as Hn by (destruct df; [done|simpl; lia]).
  destruct (ratio_within_tolerance (sum_bool (Row.is_correct <$> df))
              (Z.of_nat (length df))) as (v & Hv & Hd); [lia..|].
  do 3 eexists. exists v. split; [done|]. split.
  - rewrite <- Hv. unfold mean_bool. rewrite length_fmap. by destruct df.
  - by rewrite <- sum_bool_count.
Qed.

Lemma accuracy_within_tolerance_witness :
  ∃ grouped brier accuracy (v : Q),
    compute_calibration binary64 demo_rows
      = Calibration grouped brier accuracy (length demo_rows) ∧
    float_value accuracy = Some v ∧
    (Qabs (v - inject_Z (Z.of_nat (length (filter (λ r, Row.is_correct r = true)
                                             demo_rows)))
               / inject_Z (Z.of_nat (length demo_rows)))
     <= 1 # 1000000000)%Q.
Proof. apply accuracy_within_tolerance; [discriminate|by vm_compute]. Defined.
